(** * Desktop stash entries: app/src/lib/git/stash.ts

    A shallow embedding of the stash module of the desktop client and the
    properties its specification states about it.

    Layout of the development
    - JavaScript strings as sequences of UTF-16 code units, [split], [join];
    - the two regular expressions of the module, as backtracking matchers;
    - the entry codec ([createDesktopStashMessage], [extractBranchFromMessage]);
    - a state-and-exception monad over an external store reached through
      [git], with the trace of the commands issued and the info log;
    - the lister, the locator and the mutators;
    - an in-memory store used to run the operations on concrete scenarios;
    - the theorems. *)

From Stdlib Require Import String Ascii DecimalString List Sorted ZArith NArith Bool Lia.
Import ListNotations.

Set Implicit Arguments.

(* ================================================================= *)
(** ** JavaScript strings *)

(** A JavaScript string is a finite sequence of 16-bit code units; the
    regular expressions of the module carry no [u] flag, so they work on
    code units too. *)
Definition char16 := N.
Definition jsstring := list char16.

(** An ASCII literal of the source as a [jsstring]. *)
Fixpoint js (s : string) : jsstring :=
  match s with
  | EmptyString => []
  | String a rest => N_of_ascii a :: js rest
  end.
Arguments js s%_string.

(** [a === b] on strings. *)
Fixpoint str_eqb (a b : jsstring) : bool :=
  match a, b with
  | [], [] => true
  | x :: a', y :: b' => N.eqb x y && str_eqb a' b'
  | _, _ => false
  end.

(** [s.split(sep)] for a separator of one code unit (both separators of the
    module, NUL and U+001F, are): the pieces between the separators, so one
    piece more than there are separators, and [['']] for the empty string. *)
Fixpoint split (sep : char16) (s : jsstring) : list jsstring :=
  match s with
  | [] => [[]]
  | c :: s' =>
      if N.eqb c sep then [] :: split sep s'
      else match split sep s' with
           | piece :: pieces => (c :: piece) :: pieces
           | [] => [[c]]
           end
  end.

(** [pieces.join(sep)]. *)
Fixpoint join (sep : jsstring) (pieces : list jsstring) : jsstring :=
  match pieces with
  | [] => []
  | [p] => p
  | p :: rest => p ++ sep ++ join sep rest
  end.

(** [s !== ''] *)
Definition nonEmpty (s : jsstring) : bool :=
  match s with [] => false | _ :: _ => true end.

(** One hexadecimal digit, and [parseInt(s, 16)] on a string of such digits. *)
Definition hexDigit (c : char16) : option N :=
  (if (48 <=? c) && (c <=? 57) then Some (c - 48)
   else if (65 <=? c) && (c <=? 70) then Some (c - 55)
   else if (97 <=? c) && (c <=? 102) then Some (c - 87)
   else None)%N.

Definition parseInt16 (s : jsstring) : N :=
  fold_left (fun acc c => match hexDigit c with
                          | Some d => (16 * acc + d)%N
                          | None => acc
                          end) s 0%N.

(* ================================================================= *)
(** ** Regular expressions *)

(** The line terminators of ECMAScript: LF, CR, LS and PS.  Without the [s]
    flag [.] matches any code unit but these; with the [m] flag [^] matches
    at the start of the input and after any of these. *)
Definition isLineTerminator (c : char16) : bool :=
  (N.eqb c 10 || N.eqb c 13 || N.eqb c 8232 || N.eqb c 8233)%N.

Definition dot (c : char16) : bool := negb (isLineTerminator c).

(** Match a literal at the head of [s]; the rest of [s] when it is there. *)
Fixpoint literal (p s : jsstring) : option jsstring :=
  match p with
  | [] => Some s
  | a :: p' =>
      match s with
      | c :: s' => if N.eqb a c then literal p' s' else None
      | [] => None
      end
  end.

(** Greedy [.*] followed by the continuation [k]: take one more code unit
    while that leads to a match, give it back otherwise.  The result is the
    text consumed. *)
Fixpoint dotStar (k : jsstring -> bool) (s : jsstring) : option jsstring :=
  match s with
  | c :: s' =>
      if dot c then
        match dotStar k s' with
        | Some cap => Some (c :: cap)
        | None => if k s then Some [] else None
        end
      else if k s then Some [] else None
  | [] => if k [] then Some [] else None
  end.

(** Greedy [.+] followed by [k]. *)
Definition dotPlus (k : jsstring -> bool) (s : jsstring) : option jsstring :=
  match s with
  | c :: s' => if dot c then option_map (cons c) (dotStar k s') else None
  | [] => None
  end.

(** What [exec] returns for a pattern with one group: [match[0]] and
    [match[1]]. *)
Record RegExpExecArray := mkExec { whole : jsstring; group1 : jsstring }.

Definition DesktopStashEntryMarker : jsstring := js "!!GitHub_Desktop".

(** The tail [>$] of the pattern: a closing bracket, then the end of input. *)
Definition closingAtEnd (s : jsstring) : bool :=
  match literal (js ">") s with
  | Some [] => true
  | _ => false
  end.

(** [/!!GitHub_Desktop<(.+)>$/] tried at the head of [s]. *)
Definition desktopStashEntryMessageRe_at (s : jsstring) : option RegExpExecArray :=
  match literal (DesktopStashEntryMarker ++ js "<") s with
  | Some rest =>
      match dotPlus closingAtEnd rest with
      | Some cap => Some (mkExec s cap)
      | None => None
      end
  | None => None
  end.

(** [desktopStashEntryMessageRe.exec(message)]: the pattern has neither the
    [g] nor the [y] flag, so the search starts at index 0 and returns the
    leftmost match. *)
Fixpoint desktopStashEntryMessageRe_exec (message : jsstring) : option RegExpExecArray :=
  match desktopStashEntryMessageRe_at message with
  | Some m => Some m
  | None =>
      match message with
      | [] => None
      | _ :: rest => desktopStashEntryMessageRe_exec rest
      end
  end.

(** [/^error: /m] searched in [s]; [lineStart] says whether [^] holds at the
    head of [s].  The match array has the matched text only. *)
Fixpoint errorPrefixRe_from (lineStart : bool) (s : jsstring) : option (list jsstring) :=
  match (if lineStart then literal (js "error: ") s else None) with
  | Some _ => Some [js "error: "]
  | None =>
      match s with
      | [] => None
      | c :: s' => errorPrefixRe_from (isLineTerminator c) s'
      end
  end.

Definition errorPrefixRe_exec (s : jsstring) : option (list jsstring) :=
  errorPrefixRe_from true s.

(* ================================================================= *)
(** ** Entry codec *)

(** [`${DesktopStashEntryMarker}<${branchName}>`] *)
Definition createDesktopStashMessage (branchName : jsstring) : jsstring :=
  DesktopStashEntryMarker ++ js "<" ++ branchName ++ js ">".

(** [match === null || match[1].length === 0 ? null : match[1]] *)
Definition branchOfMatch (m : option RegExpExecArray) : option jsstring :=
  match m with
  | None => None
  | Some m => if Nat.eqb (length (group1 m)) 0 then None else Some (group1 m)
  end.

Definition extractBranchFromMessage (message : jsstring) : option jsstring :=
  branchOfMatch (desktopStashEntryMessageRe_exec message).

(* ================================================================= *)
(** ** Data model *)

(** [number] restricted to the integers the module handles (exit codes and
    lengths). *)
Definition number := Z.

(** [`${n}`] for an integer [n]. *)
Definition numberToString (n : number) : jsstring :=
  js (NilZero.string_of_int (Z.to_int n)).

(** Modelled from the spec: the repository model of models/repository, of
    which the module reads the path only. *)
Record Repository := mkRepository { path : jsstring }.

(** Modelled from the spec: the lazily loaded payload of models/stash-entry,
    one of NotLoaded, Loading, Loaded (changed files) and LoadFailed; the
    changed files are kept as their paths. *)
Inductive StashedFileChanges :=
| NotLoaded
| Loading
| Loaded (changedFiles : list jsstring)
| LoadFailed.

(** Modelled from the spec: [IStashEntry] of models/stash-entry. *)
Record IStashEntry := mkStashEntry {
  name : jsstring;
  branchName : jsstring;
  stashSha : jsstring;
  files : StashedFileChanges
}.

Record StashResult := mkStashResult {
  desktopEntries : list IStashEntry;
  stashEntryCount : number
}.

(** The error kinds of dugite; the module names one of them. *)
Inductive DugiteError :=
| MergeConflicts
| OtherDugiteError (tag : nat).

(** What [git] returns: exit code and the two output streams. *)
Record IGitResult := mkGitResult {
  exitCode : number;
  stdout : jsstring;
  stderr : jsstring
}.

(** The options the module passes to [git]; [None] for an option left out. *)
Record IGitExecutionOptions := mkOptions {
  successExitCodes : option (list number);
  expectedErrors : option (list DugiteError)
}.

Definition noOptions : IGitExecutionOptions := mkOptions None None.

(** [new GitError(result, args)] *)
Record GitError := mkGitError {
  result : IGitResult;
  args : list jsstring
}.

(** One invocation of [git], as recorded in the trace. *)
Record GitCall := mkCall {
  callArgs : list jsstring;
  callPath : jsstring;
  callName : jsstring;
  callOptions : IGitExecutionOptions
}.

(** How an awaited operation ends. *)
Inductive Outcome (A : Type) :=
| Returned (a : A)
| Raised (e : GitError).
Arguments Returned {A} a.
Arguments Raised {A} e.

(** [Array.prototype.find(p) || null] on an array of objects. *)
Definition findOrNull {A : Type} (p : A -> bool) (l : list A) : option A :=
  find p l.

(* ================================================================= *)
(** ** The operations, over an external store *)

Section Stash.

(** The external store, and [git] of ./core which runs one command against
    it: it returns the result of the command or raises, and leaves the
    store in a new state.  Both are parameters. *)
Variable World : Type.
Variable core_git :
  list jsstring -> jsstring -> jsstring -> IGitExecutionOptions ->
  World -> (GitError + IGitResult) * World.

(** State of a run: the store, the commands issued so far (oldest first)
    and the lines given to [log.info]. *)
Record Sys := mkSys {
  world : World;
  calls : list GitCall;
  infoLog : list jsstring
}.

(** An [async] function: awaited steps run one after the other, each on
    the state the previous one left; an exception ends the run. *)
Definition Promise (A : Type) : Type := Sys -> Outcome A * Sys.

Definition ret {A} (a : A) : Promise A := fun s => (Returned a, s).

Definition throw {A} (e : GitError) : Promise A := fun s => (Raised e, s).

Definition bind {A B} (c : Promise A) (k : A -> Promise B) : Promise B :=
  fun s =>
    match c s with
    | (Returned a, s') => k a s'
    | (Raised e, s') => (Raised e, s')
    end.

Notation "x <- c ;; k" := (bind c (fun x => k))
  (at level 100, c at next level, right associativity).
Notation "c ;;; k" := (bind c (fun _ => k))
  (at level 100, right associativity).

(** [await git(args, path, name, options)] *)
Definition git (args : list jsstring) (path name : jsstring)
           (options : IGitExecutionOptions) : Promise IGitResult :=
  fun s =>
    let (r, w) := core_git args path name options (world s) in
    (match r with
     | inl e => Raised e
     | inr v => Returned v
     end,
     mkSys w (calls s ++ [mkCall args path name options]) (infoLog s)).

(** [log.info(message)] *)
Definition log_info (message : jsstring) : Promise unit :=
  fun s => (Returned tt, mkSys (world s) (calls s) (infoLog s ++ [message])).

(** *** Lister *)

Definition delimiter : jsstring := js "1F".

(** [parseInt(delimiter, 16)], the one code unit of [delimiterString]. *)
Definition delimiterCode : char16 := parseInt16 delimiter.

Definition delimiterString : jsstring := [delimiterCode].

Definition format : jsstring :=
  join (js "%x" ++ delimiter) [js "%gd"; js "%H"; js "%gs"].

Definition getStashesArgs : list jsstring :=
  [js "log"; js "-g"; js "-z"; js "--pretty=" ++ format; js "refs/stash"].

Definition getStashesOptions : IGitExecutionOptions :=
  mkOptions (Some [0; 128]%Z) None.

(** [result.stdout.split('\0').filter(s => s !== '')] *)
Definition rawEntries (out : jsstring) : list jsstring :=
  filter nonEmpty (split 0%N out).

(** One turn of the loop over the entries: [acc] is
    [desktopStashEntries] before the turn, the result is it afterwards. *)
Definition pushEntry (files : StashedFileChanges)
           (acc : list IStashEntry) (entry : jsstring) : list IStashEntry :=
  let pieces := split delimiterCode entry in
  if Nat.eqb (length pieces) 3 then
    match pieces with
    | [name; stashSha; message] =>
        match extractBranchFromMessage message with
        | Some branchName => acc ++ [mkStashEntry name branchName stashSha files]
        | None => acc
        end
    | _ => acc
    end
  else acc.

Definition getStashes (repository : Repository) : Promise StashResult :=
  result <- git getStashesArgs (path repository) (js "getStashEntries")
                getStashesOptions ;;
  if Z.eqb (exitCode result) 128 then
    ret (mkStashResult [] 0%Z)
  else
    let desktopStashEntries : list IStashEntry := [] in
    let files := NotLoaded in
    let entries := rawEntries (stdout result) in
    let desktopStashEntries := fold_left (pushEntry files) entries desktopStashEntries in
    ret (mkStashResult desktopStashEntries (Z.of_nat (length entries) - 1)%Z).

(** *** Locator *)

Definition getLastDesktopStashEntryForBranch
           (repository : Repository) (branch : jsstring)
  : Promise (option IStashEntry) :=
  stash <- getStashes repository ;;
  ret (findOrNull (fun stash => str_eqb (branchName stash) branch)
                  (desktopEntries stash)).

Definition getStashEntryMatchingSha (repository : Repository) (sha : jsstring)
  : Promise (option IStashEntry) :=
  stash <- getStashes repository ;;
  ret (findOrNull (fun e => str_eqb (stashSha e) sha) (desktopEntries stash)).

(** *** Mutators *)

Definition stageUntrackedFiles (repository : Repository) : Promise unit :=
  r <- git [js "ls-files"; js "-z"; js "--others"; js "--exclude-standard"]
           (path repository) (js "getUntrackedFilesToStage") noOptions ;;
  let stdout := stdout r in
  if negb (Nat.eqb (length stdout) 0) then
    let untrackedFiles := split 0%N (firstn (length stdout - 1) stdout) in
    let args := js "add" :: untrackedFiles in
    git args (path repository) (js "stageUntrackedFiles") noOptions ;;;
    ret tt
  else ret tt.

(** The arguments and the options of the push, as [createDesktopStashEntry]
    builds them; the properties name them. *)
Definition createStashArgs (branch : jsstring) : list jsstring :=
  [js "stash"; js "push"; js "-m"; createDesktopStashMessage branch].

Definition createStashOptions : IGitExecutionOptions :=
  mkOptions (Some [0; 1]%Z) None.

(** The line given to [log.info] on a benign exit code. *)
Definition createStashLogLine (result : IGitResult) : jsstring :=
  js "[createDesktopStashEntry] a stash was created successfully but exit code "
  ++ numberToString (exitCode result)
  ++ js " reported. stderr: " ++ stderr result.

Definition createDesktopStashEntry (repository : Repository) (branch : jsstring)
  : Promise bool :=
  stageUntrackedFiles repository ;;;
  let message := createDesktopStashMessage branch in
  let args := [js "stash"; js "push"; js "-m"; message] in
  result <- git args (path repository) (js "createStashEntry") createStashOptions ;;
  if Z.eqb (exitCode result) 1 then
    let matches := errorPrefixRe_exec (stderr result) in
    match matches with
    | Some found =>
        if Nat.ltb 0 (length found) then throw (mkGitError result args)
        else log_info (createStashLogLine result) ;;; ret true
    | None => log_info (createStashLogLine result) ;;; ret true
    end
  else ret true.

(** The arguments of the drop, as [dropDesktopStashEntry] builds them. *)
Definition dropStashArgs (entryName : jsstring) : list jsstring :=
  [js "stash"; js "drop"; entryName].

Definition dropDesktopStashEntry (repository : Repository) (sha : jsstring)
  : Promise unit :=
  entryToDelete <- getStashEntryMatchingSha repository sha ;;
  match entryToDelete with
  | Some entryToDelete =>
      let args := [js "stash"; js "drop"; name entryToDelete] in
      git args (path repository) (js "dropStashEntry") noOptions ;;;
      ret tt
  | None => ret tt
  end.

(** The arguments and the options of the pop, as [popStashEntry] builds
    them. *)
Definition popStashArgs (entryName : jsstring) : list jsstring :=
  [js "stash"; js "pop"; js "--quiet"; entryName].

Definition popStashOptions : IGitExecutionOptions :=
  mkOptions (Some [0; 1]%Z) (Some [MergeConflicts]).

(** The line given to [log.info] before the compensating drop. *)
Definition popStashLogLine (result : IGitResult) : jsstring :=
  js "[popStashEntry] a stash was popped successfully but exit code "
  ++ numberToString (exitCode result) ++ js " reported.".

Definition popStashEntry (repository : Repository) (sha : jsstring)
  : Promise unit :=
  let expectedErrors := [MergeConflicts] in
  let successExitCodes := [0; 1]%Z in
  stashToPop <- getStashEntryMatchingSha repository sha ;;
  match stashToPop with
  | Some stashToPop =>
      let args := [js "stash"; js "pop"; js "--quiet"; name stashToPop] in
      result <- git args (path repository) (js "popStashEntry")
                    (mkOptions (Some successExitCodes) (Some expectedErrors)) ;;
      if Z.eqb (exitCode result) 1 then
        if Nat.ltb 0 (length (stderr result)) then
          throw (mkGitError result args)
        else
          log_info (popStashLogLine result) ;;;
          dropDesktopStashEntry repository sha
      else ret tt
  | None => ret tt
  end.

End Stash.

(* ================================================================= *)
(** ** Vocabulary of the specification *)

Definition closingDelimiter : char16 := 62%N.

(** [b] has none of the four line terminators. *)
Definition hasNoLineTerminator (b : jsstring) : Prop :=
  forall c, In c b -> isLineTerminator c = false.

(** [message] matches the marker pattern: somewhere in it the marker and an
    opening bracket, then a non-empty captured text free of line terminators,
    then the closing bracket as the last code unit of the message. *)
Definition MarkerMatch (message : jsstring) : Prop :=
  exists before captured,
    message = before ++ DesktopStashEntryMarker ++ js "<" ++ captured ++ js ">"
    /\ captured <> []
    /\ hasNoLineTerminator captured.


(** The records of a reflog walk, each ended by NUL. *)
Definition walkOutput (records : list jsstring) : jsstring :=
  concat (map (fun record => record ++ [0%N]) records).

(** A raw record: not empty, and without the record terminator. *)
Definition rawRecord (record : jsstring) : Prop :=
  record <> [] /\ ~ In 0%N record.

Section Observations.

Variable World : Type.
Variable core_git :
  list jsstring -> jsstring -> jsstring -> IGitExecutionOptions ->
  World -> (GitError + IGitResult) * World.

(** The state after a command that left the store as [w]. *)
Definition afterCall (s : Sys World) (c : GitCall) (w : World) : Sys World :=
  mkSys w (calls s ++ [c]) (infoLog s).

(** The commands as they appear in the trace. *)
Definition getStashesCall (repository : Repository) : GitCall :=
  mkCall getStashesArgs (path repository) (js "getStashEntries") getStashesOptions.

Definition popStashCall (repository : Repository) (entryName : jsstring) : GitCall :=
  mkCall (popStashArgs entryName) (path repository) (js "popStashEntry")
         popStashOptions.

Definition dropStashCall (repository : Repository) (entryName : jsstring) : GitCall :=
  mkCall (dropStashArgs entryName) (path repository) (js "dropStashEntry")
         noOptions.

Definition createStashCall (repository : Repository) (branch : jsstring) : GitCall :=
  mkCall (createStashArgs branch) (path repository) (js "createStashEntry")
         createStashOptions.

(** A [stash drop] command, whatever its target. *)
Definition isDropCall (c : GitCall) : bool :=
  match callArgs c with
  | cmd :: sub :: _ => str_eqb cmd (js "stash") && str_eqb sub (js "drop")
  | _ => false
  end.

(** The reflog walk of the store [w], as [git] reports it. *)
Definition reflogWalk (repository : Repository) (w : World)
  : (GitError + IGitResult) * World :=
  core_git getStashesArgs (path repository) (js "getStashEntries")
           getStashesOptions w.

(** What the lister makes of a result of the reflog walk. *)
Definition stashResultOf (r : IGitResult) : StashResult :=
  if Z.eqb (exitCode r) 128 then mkStashResult [] 0%Z
  else mkStashResult (fold_left (pushEntry NotLoaded) (rawEntries (stdout r)) [])
                     (Z.of_nat (length (rawEntries (stdout r))) - 1)%Z.

(** The owned entries the store [w] lists, none when the walk fails. *)
Definition listed (repository : Repository) (w : World) : list IStashEntry :=
  match reflogWalk repository w with
  | (inr r, _) => desktopEntries (stashResultOf r)
  | (inl _, _) => []
  end.

(** Whether the store [w] lists an owned entry with hash [sha]. *)
Definition listsHash (repository : Repository) (w : World) (sha : jsstring) : bool :=
  existsb (fun e => str_eqb (stashSha e) sha) (listed repository w).

End Observations.

(* ================================================================= *)
(** ** An in-memory store *)

(** Modelled from the spec: [git] of ./core is not part of the sources, and
    the store behind it is the version-control binary.  This module stands in
    for both on concrete scenarios: a stack of stashes, newest first, that
    answers the five commands the module issues.  What [stash pop] and
    [stash push] report is scripted in the store, so that each exit path of
    the operations can be reached; a push that reports an error line adds no
    entry.  [git] raises unless the exit code is one
    of [successExitCodes] (0 alone when the option is left out). *)
Module MemoryStore.

Record Store := mkStore {
  stack : list (jsstring * jsstring);   (* hash and subject, newest first *)
  untracked : list jsstring;
  popAnswer : IGitResult;
  popRemoves : bool;
  pushAnswer : IGitResult
}.

Definition ok : IGitResult := mkGitResult 0%Z [] [].

(** The positional name of the entry at index [i]. *)
Definition positionalRef (i : nat) : jsstring :=
  js "stash@{" ++ numberToString (Z.of_nat i) ++ js "}".

(** The reflog walk: one record per entry, fields joined by U+001F, each
    record ended by NUL. *)
Fixpoint walk (i : nat) (entries : list (jsstring * jsstring)) : jsstring :=
  match entries with
  | [] => []
  | (sha, subject) :: rest =>
      positionalRef i ++ [31%N] ++ sha ++ [31%N] ++ subject ++ [0%N]
      ++ walk (S i) rest
  end.

Fixpoint indexOfRef (i : nat) (entries : list (jsstring * jsstring))
         (ref : jsstring) : option nat :=
  match entries with
  | [] => None
  | _ :: rest =>
      if str_eqb (positionalRef i) ref then Some i
      else indexOfRef (S i) rest ref
  end.

Fixpoint removeAt {A} (i : nat) (l : list A) : list A :=
  match l, i with
  | [], _ => []
  | _ :: rest, O => rest
  | x :: rest, S j => x :: removeAt j rest
  end.

Definition withStack (s : Store) (st : list (jsstring * jsstring)) : Store :=
  mkStore st (untracked s) (popAnswer s) (popRemoves s) (pushAnswer s).

(** The command run against the store: its result and the store after. *)
Definition run (args : list jsstring) (s : Store) : IGitResult * Store :=
  match args with
  | cmd :: rest =>
      if str_eqb cmd (js "log") then
        match stack s with
        | [] => (mkGitResult 128%Z [] (js "fatal: ambiguous argument 'refs/stash'"), s)
        | _ => (mkGitResult 0%Z (walk 0 (stack s)) [], s)
        end
      else if str_eqb cmd (js "ls-files") then
        (mkGitResult 0%Z (concat (map (fun f => f ++ [0%N]) (untracked s))) [], s)
      else if str_eqb cmd (js "add") then
        (ok, mkStore (stack s) [] (popAnswer s) (popRemoves s) (pushAnswer s))
      else if str_eqb cmd (js "stash") then
        match rest with
        | [sub; ref] =>
            if str_eqb sub (js "drop") then
              match indexOfRef 0 (stack s) ref with
              | Some i => (ok, withStack s (removeAt i (stack s)))
              | None => (mkGitResult 1%Z [] (js "error: not a valid reference"), s)
              end
            else (ok, s)
        | [sub; quiet; ref] =>
            if str_eqb sub (js "pop") then
              match indexOfRef 0 (stack s) ref with
              | Some i =>
                  (popAnswer s,
                   if popRemoves s then withStack s (removeAt i (stack s)) else s)
              | None => (mkGitResult 1%Z [] (js "error: not a valid reference"), s)
              end
            else if str_eqb sub (js "push") then
              (pushAnswer s,
               match errorPrefixRe_exec (stderr (pushAnswer s)) with
               | Some _ => s
               | None =>
                   withStack s
                     ((js "sha" ++ numberToString (Z.of_nat (length (stack s))),
                       js "On branch: " ++ ref) :: stack s)
               end)
            else (ok, s)
        | _ => (ok, s)
        end
      else (ok, s)
  | [] => (ok, s)
  end.

Definition accepted (options : IGitExecutionOptions) (code : number) : bool :=
  existsb (Z.eqb code)
          (match successExitCodes options with
           | Some codes => codes
           | None => [0%Z]
           end).

Definition git (args : list jsstring) (path name : jsstring)
           (options : IGitExecutionOptions) (s : Store)
  : (GitError + IGitResult) * Store :=
  let (r, s') := run args s in
  if accepted options (exitCode r) then (inr r, s')
  else (inl (mkGitError r args), s').

(** A run starts with an empty trace and an empty log. *)
Definition start (s : Store) : Sys Store := mkSys s [] [].

Definition repo : Repository := mkRepository (js "/repo").

(** Two stashes made by the application and one made by another tool. *)
Definition threeEntries : list (jsstring * jsstring) :=
  [ (js "c3", js "On main: !!GitHub_Desktop<main>");
    (js "b2", js "WIP on main: 1a2b3c4 message");
    (js "a1", js "On topic: !!GitHub_Desktop<topic>") ].

(** The pop reports exit code 1 and nothing on standard error, and leaves
    the entry on the stack. *)
Definition quietConflict : Store :=
  mkStore threeEntries [] (mkGitResult 1%Z [] []) false ok.

(** The pop reports exit code 1 and an error, and leaves the entry. *)
Definition loudFailure : Store :=
  mkStore threeEntries [] (mkGitResult 1%Z [] (js "error: could not restore")) false ok.

Definition empty : Store := mkStore [] [] ok true ok.

Definition calm : Store := mkStore threeEntries [js "new.txt"] ok true ok.



(** The entry of branch [topic], third on the stack. *)
Definition topicEntry : IStashEntry :=
  mkStashEntry (positionalRef 2) (js "topic") (js "a1") NotLoaded.

(** The stack once that entry is gone. *)
Definition twoEntries : list (jsstring * jsstring) :=
  [ (js "c3", js "On main: !!GitHub_Desktop<main>");
    (js "b2", js "WIP on main: 1a2b3c4 message") ].

Definition walked (s : Sys Store) : Sys Store :=
  afterCall s (getStashesCall repo) (world s).

(** The three records of the walk of [threeEntries]. *)
Definition threeRecords : list jsstring :=
  [ positionalRef 0 ++ [31%N] ++ js "c3" ++ [31%N]
      ++ js "On main: !!GitHub_Desktop<main>";
    positionalRef 1 ++ [31%N] ++ js "b2" ++ [31%N]
      ++ js "WIP on main: 1a2b3c4 message";
    positionalRef 2 ++ [31%N] ++ js "a1" ++ [31%N]
      ++ js "On topic: !!GitHub_Desktop<topic>" ].

(** The entry of branch [main], first on the stack. *)
Definition mainEntry : IStashEntry :=
  mkStashEntry (positionalRef 0) (js "main") (js "c3") NotLoaded.

(** When the entries of [threeEntries] were made: the deeper, the older. *)
Definition createdAt (e : IStashEntry) : nat :=
  if str_eqb (stashSha e) (js "c3") then 3
  else if str_eqb (stashSha e) (js "b2") then 2
  else 1.

End MemoryStore.

(* ================================================================= *)
(** ** Further vocabulary *)

Definition fieldDelimiter : char16 := 31%N.

Definition openingDelimiter : char16 := 60%N.

(** A field of a reflog record: free of the field delimiter and of the
    record terminator. *)
Definition cleanField (f : jsstring) : Prop :=
  ~ In fieldDelimiter f /\ ~ In 0%N f.

(** A record of the reflog walk with its three fields: positional name,
    hash and subject. *)
Definition reflogRecord (t : jsstring * jsstring * jsstring) : jsstring :=
  let '(entryName, sha, subject) := t in
  entryName ++ [fieldDelimiter] ++ sha ++ [fieldDelimiter] ++ subject.

Definition cleanRecord (t : jsstring * jsstring * jsstring) : Prop :=
  let '(entryName, sha, subject) := t in
  cleanField entryName /\ cleanField sha /\ cleanField subject.

(** The owned entry a record stands for, if its subject carries the marker. *)
Definition ownedEntryOf (t : jsstring * jsstring * jsstring) : list IStashEntry :=
  let '(entryName, sha, subject) := t in
  match extractBranchFromMessage subject with
  | Some branch => [mkStashEntry entryName branch sha NotLoaded]
  | None => []
  end.

(** The two commands of the staging step, as they appear in the trace. *)
Definition lsFilesCall (repository : Repository) : GitCall :=
  mkCall [js "ls-files"; js "-z"; js "--others"; js "--exclude-standard"]
         (path repository) (js "getUntrackedFilesToStage") noOptions.

Definition addCall (repository : Repository) (untrackedFiles : list jsstring)
  : GitCall :=
  mkCall (js "add" :: untrackedFiles) (path repository) (js "stageUntrackedFiles")
         noOptions.

(** Modelled from the spec: [git] of ./core on a path that is no repository:
    every command fails with exit code 128, and since [git] is handed no
    expected error it raises, whatever the options. *)
Module BrokenStore.

Definition failure : IGitResult :=
  mkGitResult 128%Z [] (js "fatal: not a git repository").

Definition git (args : list jsstring) (path name : jsstring)
           (options : IGitExecutionOptions) (s : unit)
  : (GitError + IGitResult) * unit :=
  (inl (mkGitError failure args), s).

Definition start : Sys unit := mkSys tt [] [].

End BrokenStore.

(** Further states of the in-memory store. *)
Module MoreStores.
Import MemoryStore.

(** The pop reports exit code 2, which [git] does not accept. *)
Definition rejectedPop : Store :=
  mkStore threeEntries [] (mkGitResult 2%Z [] (js "fatal: bad revision")) false ok.

(** Two untracked files wait to be staged. *)
Definition twoUntracked : Store :=
  mkStore threeEntries [js "new.txt"; js "docs/notes.md"] ok true ok.

(** The push reports exit code 3, which [git] does not accept. *)
Definition rejectedPush : Store :=
  mkStore threeEntries [] ok true (mkGitResult 3%Z [] (js "fatal: cannot lock")).

(** One stash, made by the application. *)
Definition singleOwned : Store :=
  mkStore [(js "a1", js "On topic: !!GitHub_Desktop<topic>")] [] ok true ok.

(** The records of [threeEntries], field by field. *)
Definition threeTriples : list (jsstring * jsstring * jsstring) :=
  [ (positionalRef 0, js "c3", js "On main: !!GitHub_Desktop<main>");
    (positionalRef 1, js "b2", js "WIP on main: 1a2b3c4 message");
    (positionalRef 2, js "a1", js "On topic: !!GitHub_Desktop<topic>") ].

End MoreStores.

(** Modelled from the spec: [git] of ./core over the in-memory store, at a
    moment when the store cannot be written by [stash drop] (its lock file is
    held by another process): that command fails with exit code 1, which
    [git] raises since no option accepts it; every other command is
    answered as by [MemoryStore]. *)
Module LockedStore.

Definition lockFailure : IGitResult :=
  mkGitResult 1%Z [] (js "fatal: Unable to create 'index.lock': File exists.").

Definition isDrop (args : list jsstring) : bool :=
  match args with
  | cmd :: sub :: _ => str_eqb cmd (js "stash") && str_eqb sub (js "drop")
  | _ => false
  end.

Definition git (args : list jsstring) (path name : jsstring)
           (options : IGitExecutionOptions) (s : MemoryStore.Store)
  : (GitError + IGitResult) * MemoryStore.Store :=
  if isDrop args then (inl (mkGitError lockFailure args), s)
  else MemoryStore.git args path name options s.

End LockedStore.

(* ================================================================= *)
(** ** Strings and patterns *)

Lemma str_eqb_eq (a b : jsstring) : str_eqb a b = true <-> a = b.
Proof.
  revert b; induction a as [|x a IH]; intros [|y b]; simpl;
    try (split; [discriminate | discriminate]); try tauto.
  rewrite andb_true_iff, N.eqb_eq, IH.
  split; [intros [-> ->]; reflexivity | intros H; inversion H; auto].
Qed.

Lemma str_eqb_refl (a : jsstring) : str_eqb a a = true.
Proof. apply str_eqb_eq; reflexivity. Qed.

Lemma str_eqb_neq (a b : jsstring) : str_eqb a b = false <-> a <> b.
Proof.
  rewrite <- str_eqb_eq. destruct (str_eqb a b); split; congruence.
Qed.

Lemma literal_app (p r : jsstring) : literal p (p ++ r) = Some r.
Proof.
  induction p as [|a p IH]; simpl; [reflexivity|].
  rewrite N.eqb_refl; exact IH.
Qed.

Lemma literal_sound (p s r : jsstring) : literal p s = Some r -> s = p ++ r.
Proof.
  revert s; induction p as [|a p IH]; simpl; intros s H.
  - congruence.
  - destruct s as [|c s]; [discriminate|].
    destruct (N.eqb a c) eqn:E; [|discriminate].
    apply N.eqb_eq in E; subst c. f_equal; auto.
Qed.

Lemma literal_iff (p s r : jsstring) : literal p s = Some r <-> s = p ++ r.
Proof.
  split; [apply literal_sound | intros ->; apply literal_app].
Qed.

Lemma closingAtEnd_iff (s : jsstring) :
  closingAtEnd s = true <-> s = [closingDelimiter].
Proof.
  unfold closingAtEnd.
  destruct (literal (js ">") s) as [r|] eqn:E.
  - apply literal_sound in E; subst s.
    destruct r; unfold closingDelimiter; simpl; split; congruence.
  - split; [discriminate|]. intros ->. discriminate E.
Qed.

Lemma dot_closingDelimiter : dot closingDelimiter = true.
Proof. reflexivity. Qed.

Lemma dot_true_iff (c : char16) : dot c = true <-> isLineTerminator c = false.
Proof. unfold dot. destruct (isLineTerminator c); simpl; split; congruence. Qed.

Lemma hasNoLineTerminator_cons (c : char16) (b : jsstring) :
  hasNoLineTerminator (c :: b) <-> isLineTerminator c = false /\ hasNoLineTerminator b.
Proof.
  unfold hasNoLineTerminator; simpl; split.
  - intros H; split; [apply H; auto | intros x Hx; apply H; auto].
  - intros [Hc Hb] x [<-|Hx]; auto.
Qed.

(** The greedy star before [>$] consumes everything but the last bracket. *)
Lemma dotStar_closing_complete (captured : jsstring) :
  hasNoLineTerminator captured ->
  dotStar closingAtEnd (captured ++ [closingDelimiter]) = Some captured.
Proof.
  induction captured as [|c captured IH]; intros H.
  - reflexivity.
  - apply hasNoLineTerminator_cons in H as [Hc H].
    simpl. apply dot_true_iff in Hc. rewrite Hc, (IH H). reflexivity.
Qed.

Lemma dotStar_closing_sound (s captured : jsstring) :
  dotStar closingAtEnd s = Some captured ->
  s = captured ++ [closingDelimiter] /\ hasNoLineTerminator captured.
Proof.
  revert captured; induction s as [|c s IH]; intros captured H.
  - simpl in H. discriminate.
  - simpl in H. destruct (dot c) eqn:Hc.
    + destruct (dotStar closingAtEnd s) as [cap|] eqn:Hs.
      * injection H as <-. destruct (IH cap eq_refl) as [-> Hcap].
        split; [reflexivity|].
        apply hasNoLineTerminator_cons; split; [apply dot_true_iff|]; assumption.
      * destruct (closingAtEnd (c :: s)) eqn:Hk; [|discriminate].
        injection H as <-. apply closingAtEnd_iff in Hk.
        split; [exact Hk | intros x []].
    + destruct (closingAtEnd (c :: s)) eqn:Hk; [|discriminate].
      apply closingAtEnd_iff in Hk. injection Hk as -> ->.
      discriminate Hc.
Qed.

Lemma dotPlus_closing_iff (s captured : jsstring) :
  dotPlus closingAtEnd s = Some captured <->
  s = captured ++ [closingDelimiter] /\ captured <> [] /\ hasNoLineTerminator captured.
Proof.
  split.
  - destruct s as [|c s]; simpl; [discriminate|].
    destruct (dot c) eqn:Hc; [|discriminate].
    destruct (dotStar closingAtEnd s) as [cap|] eqn:Hs; simpl; [|discriminate].
    intros H; injection H as <-.
    apply dotStar_closing_sound in Hs as [-> Hcap].
    repeat split; [discriminate|].
    apply hasNoLineTerminator_cons; split; [apply dot_true_iff|]; assumption.
  - intros (-> & Hne & Hcap).
    destruct captured as [|c captured]; [congruence|].
    apply hasNoLineTerminator_cons in Hcap as [Hc Hcap].
    simpl. apply dot_true_iff in Hc. rewrite Hc.
    rewrite (dotStar_closing_complete Hcap). reflexivity.
Qed.

(** The pattern at the head of a message. *)
Lemma desktopStashEntryMessageRe_at_iff (s : jsstring) (m : RegExpExecArray) :
  desktopStashEntryMessageRe_at s = Some m <->
  s = DesktopStashEntryMarker ++ js "<" ++ group1 m ++ js ">"
  /\ group1 m <> [] /\ hasNoLineTerminator (group1 m) /\ whole m = s.
Proof.
  unfold desktopStashEntryMessageRe_at. split.
  - destruct (literal _ s) as [rest|] eqn:Hl; [|discriminate].
    destruct (dotPlus closingAtEnd rest) as [cap|] eqn:Hd; [|discriminate].
    intros H; injection H as <-. simpl.
    apply literal_sound in Hl. apply dotPlus_closing_iff in Hd as (-> & Hne & Hcap).
    rewrite Hl, <- app_assoc. auto.
  - intros (Hs & Hne & Hcap & Hw).
    assert (Hl : literal (DesktopStashEntryMarker ++ js "<") s
                 = Some (group1 m ++ [closingDelimiter])).
    { apply literal_iff. rewrite Hs, <- app_assoc. reflexivity. }
    rewrite Hl.
    rewrite (proj2 (dotPlus_closing_iff _ _) (conj eq_refl (conj Hne Hcap))).
    destruct m; simpl in *; congruence.
Qed.

Lemma desktopStashEntryMessageRe_exec_head (s : jsstring) (m : RegExpExecArray) :
  desktopStashEntryMessageRe_at s = Some m ->
  desktopStashEntryMessageRe_exec s = Some m.
Proof.
  intros H. destruct s; cbn [desktopStashEntryMessageRe_exec]; rewrite H; reflexivity.
Qed.

(** A match of [exec] is a match of the pattern at some index. *)
Lemma desktopStashEntryMessageRe_exec_sound (message : jsstring) (m : RegExpExecArray) :
  desktopStashEntryMessageRe_exec message = Some m ->
  exists before,
    message = before ++ DesktopStashEntryMarker ++ js "<" ++ group1 m ++ js ">"
    /\ group1 m <> [] /\ hasNoLineTerminator (group1 m).
Proof.
  induction message as [|c message IH]; simpl.
  - discriminate.
  - destruct (desktopStashEntryMessageRe_at (c :: message)) as [m'|] eqn:E.
    + intros H; injection H as ->.
      apply desktopStashEntryMessageRe_at_iff in E as (E & Hne & Hcap & _).
      exists []. auto.
    + intros H. destruct (IH H) as (before & -> & Hne & Hcap).
      exists (c :: before). auto.
Qed.

(** [exec] finds a match whenever there is one. *)
Lemma desktopStashEntryMessageRe_exec_complete (message : jsstring) :
  MarkerMatch message -> desktopStashEntryMessageRe_exec message <> None.
Proof.
  intros (before & captured & -> & Hne & Hcap).
  induction before as [|c before IH].
  - change ([] ++ ?x) with x.
    assert (E : desktopStashEntryMessageRe_at
                  (DesktopStashEntryMarker ++ js "<" ++ captured ++ js ">")
                = Some (mkExec (DesktopStashEntryMarker ++ js "<" ++ captured ++ js ">")
                               captured)).
    { apply desktopStashEntryMessageRe_at_iff; simpl; auto. }
    rewrite (desktopStashEntryMessageRe_exec_head _ E). discriminate.
  - change ((c :: before) ++ ?x) with (c :: before ++ x).
    cbn [desktopStashEntryMessageRe_exec].
    destruct (desktopStashEntryMessageRe_at _); [discriminate | exact IH].
Qed.

Lemma desktopStashEntryMessageRe_exec_none_iff (message : jsstring) :
  desktopStashEntryMessageRe_exec message = None <-> ~ MarkerMatch message.
Proof.
  split.
  - intros H Hm. exact (desktopStashEntryMessageRe_exec_complete Hm H).
  - intros H. destruct (desktopStashEntryMessageRe_exec message) as [m|] eqn:E;
      [|reflexivity].
    exfalso; apply H.
    destruct (desktopStashEntryMessageRe_exec_sound _ E) as (before & Hm & Hne & Hcap).
    exists before, (group1 m). auto.
Qed.

(** The round trip through the codec, for names the capture group accepts. *)
Lemma extract_create (b : jsstring) :
  b <> [] -> hasNoLineTerminator b ->
  extractBranchFromMessage (createDesktopStashMessage b) = Some b.
Proof.
  intros Hne Hb. unfold extractBranchFromMessage, createDesktopStashMessage.
  assert (E : desktopStashEntryMessageRe_at
                (DesktopStashEntryMarker ++ js "<" ++ b ++ js ">")
              = Some (mkExec (DesktopStashEntryMarker ++ js "<" ++ b ++ js ">") b)).
  { apply desktopStashEntryMessageRe_at_iff; simpl; auto. }
  rewrite (desktopStashEntryMessageRe_exec_head _ E).
  simpl. destruct b; [congruence | reflexivity].
Qed.

Lemma extract_none_iff (message : jsstring) :
  extractBranchFromMessage message = None <-> ~ MarkerMatch message.
Proof.
  rewrite <- desktopStashEntryMessageRe_exec_none_iff.
  unfold extractBranchFromMessage.
  destruct (desktopStashEntryMessageRe_exec message) as [m|] eqn:E; simpl;
    [|tauto].
  apply desktopStashEntryMessageRe_exec_sound in E as (_ & _ & Hne & _).
  destruct (group1 m); [congruence|]. simpl. split; discriminate.
Qed.

Lemma hasNoLineTerminator_forallb (b : jsstring) :
  forallb dot b = true -> hasNoLineTerminator b.
Proof.
  intros H c Hc. apply dot_true_iff.
  rewrite forallb_forall in H. auto.
Qed.

(* ================================================================= *)
(** ** Properties of the entry codec *)

(** C4 (as stated, refuted): the branch name "a", LINE FEED, "b" is not
    empty and has no closing delimiter, yet its marker message decodes to
    nothing: [.] does not match a line terminator. *)
Lemma codec_roundtrip_fails_on_line_feed :
  [97; 10; 98]%N <> []
  /\ ~ In closingDelimiter [97; 10; 98]%N
  /\ extractBranchFromMessage (createDesktopStashMessage [97; 10; 98]%N) = None.
Proof.
  split; [discriminate|]. split; [|reflexivity].
  unfold closingDelimiter; simpl; intuition discriminate.
Qed.

(** C4 (amended): for every non-empty branch name that contains neither the
    closing delimiter nor a line terminator (LF, CR, U+2028, U+2029),
    decoding the encoded marker message yields the name back. *)
Theorem codec_roundtrip_without_closing_delimiter (b : jsstring) :
  b <> [] ->
  ~ In closingDelimiter b ->
  hasNoLineTerminator b ->
  extractBranchFromMessage (createDesktopStashMessage b) = Some b.
Proof.
  intros Hne _ Hb. apply extract_create; assumption.
Qed.

Lemma codec_roundtrip_without_closing_delimiter_witness :
  extractBranchFromMessage (createDesktopStashMessage (js "feature-x"))
  = Some (js "feature-x").
Proof.
  apply codec_roundtrip_without_closing_delimiter.
  - discriminate.
  - unfold closingDelimiter; simpl; intuition discriminate.
  - apply hasNoLineTerminator_forallb; reflexivity.
Defined.

(** C5: decoding is a total function; it yields nothing exactly on the
    messages that do not match the end-anchored marker pattern, it rejects a
    match whose captured name is empty, what it yields is never empty, and
    both "random text" and the encoding of the empty name decode to
    nothing. *)
Theorem extractBranchFromMessage_absent :
  (forall message,
      extractBranchFromMessage message = None <-> ~ MarkerMatch message)
  /\ (forall m, group1 m = [] -> branchOfMatch (Some m) = None)
  /\ (forall message,
         extractBranchFromMessage message = None
         \/ exists b, extractBranchFromMessage message = Some b /\ b <> [])
  /\ extractBranchFromMessage (js "random text") = None
  /\ extractBranchFromMessage (createDesktopStashMessage (js "")) = None.
Proof.
  split; [exact extract_none_iff|].
  split; [intros m H; unfold branchOfMatch; rewrite H; reflexivity|].
  split; [|split; reflexivity].
  intros message. unfold extractBranchFromMessage.
  destruct (desktopStashEntryMessageRe_exec message) as [m|]; simpl; [|auto].
  destruct (group1 m) as [|c g] eqn:E; simpl; [auto|].
  right. exists (c :: g). split; [reflexivity | discriminate].
Qed.

Lemma extractBranchFromMessage_absent_witness :
  ~ MarkerMatch (js "WIP on main: 1a2b3c4 message")
  /\ extractBranchFromMessage (js "WIP on main: 1a2b3c4 message") = None
  /\ branchOfMatch (Some (mkExec (js "!!GitHub_Desktop<>") [])) = None.
Proof.
  assert (H : ~ MarkerMatch (js "WIP on main: 1a2b3c4 message")).
  { apply desktopStashEntryMessageRe_exec_none_iff. reflexivity. }
  split; [exact H|]. split.
  - apply (proj1 extractBranchFromMessage_absent). exact H.
  - apply (proj1 (proj2 extractBranchFromMessage_absent)). reflexivity.
Defined.

(** C10 (as stated, refuted): the branch name "a", CARRIAGE RETURN, "b" is
    not empty and has no newline character (LINE FEED), yet its marker
    message decodes to nothing: CARRIAGE RETURN is a line terminator too. *)
Lemma codec_roundtrip_fails_on_carriage_return :
  [97; 13; 98]%N <> []
  /\ ~ In 10%N [97; 13; 98]%N
  /\ extractBranchFromMessage (createDesktopStashMessage [97; 13; 98]%N) = None.
Proof.
  split; [discriminate|]. split; [|reflexivity].
  simpl; intuition discriminate.
Qed.

(** C10 (amended): for every non-empty branch name that contains no line
    terminator (LF, CR, U+2028, U+2029), decoding the encoded marker message
    yields the name back, also when the name contains the closing
    delimiter. *)
Theorem codec_roundtrip_greedy (b : jsstring) :
  b <> [] ->
  hasNoLineTerminator b ->
  extractBranchFromMessage (createDesktopStashMessage b) = Some b.
Proof.
  intros Hne Hb. apply extract_create; assumption.
Qed.

Lemma codec_roundtrip_greedy_witness :
  In closingDelimiter (js "fix/a>b>")
  /\ extractBranchFromMessage (createDesktopStashMessage (js "fix/a>b>"))
     = Some (js "fix/a>b>").
Proof.
  split.
  - unfold closingDelimiter; simpl; auto 10.
  - apply codec_roundtrip_greedy.
    + discriminate.
    + apply hasNoLineTerminator_forallb; reflexivity.
Defined.

Unset Implicit Arguments.

(* ================================================================= *)
(** ** The error tag at the start of a line *)

Lemma errorPrefixRe_from_step (lineStart : bool) (c : char16) (s : jsstring) :
  errorPrefixRe_from lineStart (c :: s) =
  match (if lineStart then literal (js "error: ") (c :: s) else None) with
  | Some _ => Some [js "error: "]
  | None => errorPrefixRe_from (isLineTerminator c) s
  end.
Proof. reflexivity. Qed.

(** A match array of the pattern has exactly the matched text. *)
Lemma errorPrefixRe_from_some (lineStart : bool) (s : jsstring) (found : list jsstring) :
  errorPrefixRe_from lineStart s = Some found -> found = [js "error: "].
Proof.
  revert lineStart; induction s as [|c s IH]; intros lineStart.
  - destruct lineStart; simpl; discriminate.
  - rewrite errorPrefixRe_from_step.
    destruct (if lineStart then literal (js "error: ") (c :: s) else None).
    + congruence.
    + apply IH.
Qed.





(* ================================================================= *)
(** ** Records of the reflog walk *)

Lemma split_record (sep : char16) (record rest : jsstring) :
  ~ In sep record ->
  split sep (record ++ sep :: rest) = record :: split sep rest.
Proof.
  induction record as [|c record IH]; intros H; simpl.
  - rewrite N.eqb_refl. reflexivity.
  - simpl in H. destruct (N.eqb c sep) eqn:E.
    + apply N.eqb_eq in E. subst c. tauto.
    + rewrite IH by tauto. reflexivity.
Qed.

(** Splitting on NUL and dropping the empty pieces gives the records back. *)
Lemma rawEntries_walkOutput (records : list jsstring) :
  Forall rawRecord records -> rawEntries (walkOutput records) = records.
Proof.
  unfold rawEntries, walkOutput.
  induction 1 as [|record records [Hne Hnul] _ IH]; simpl; [reflexivity|].
  rewrite <- app_assoc. simpl.
  rewrite split_record by assumption. simpl.
  destruct record; [congruence|]. simpl. f_equal. exact IH.
Qed.

Lemma rawRecord_forallb (records : list jsstring) :
  forallb (fun record =>
             nonEmpty record && forallb (fun c => negb (N.eqb c 0)) record)
          records = true ->
  Forall rawRecord records.
Proof.
  rewrite forallb_forall. intros H. apply Forall_forall. intros record Hin.
  apply H in Hin. apply andb_true_iff in Hin as [Hne Hnul]. split.
  - destruct record; [discriminate Hne | discriminate].
  - rewrite forallb_forall in Hnul. intros H0. apply Hnul in H0. discriminate H0.
Qed.

Lemma rawEntries_nonEmpty (out : jsstring) :
  Forall (fun record => record <> []) (rawEntries out).
Proof.
  unfold rawEntries. apply Forall_forall. intros record H.
  apply filter_In in H as [_ H]. destruct record; [discriminate H | discriminate].
Qed.

(* ================================================================= *)
(** ** Properties of the operations *)

Section StoreProperties.

Variable World : Type.
Variable core_git :
  list jsstring -> jsstring -> jsstring -> IGitExecutionOptions ->
  World -> (GitError + IGitResult) * World.

Lemma git_run (args : list jsstring) (dir label : jsstring)
      (options : IGitExecutionOptions) (s : Sys World) :
  git core_git args dir label options s =
  (match fst (core_git args dir label options (world s)) with
   | inl e => Raised e
   | inr v => Returned v
   end,
   afterCall s (mkCall args dir label options)
             (snd (core_git args dir label options (world s)))).
Proof.
  unfold git, afterCall. destruct (core_git _ _ _ _ _); reflexivity.
Qed.

Lemma getStashes_run (repository : Repository) (s : Sys World) :
  getStashes core_git repository s =
  (match fst (reflogWalk core_git repository (world s)) with
   | inl e => Raised e
   | inr r => Returned (stashResultOf r)
   end,
   afterCall s (getStashesCall repository)
             (snd (reflogWalk core_git repository (world s)))).
Proof.
  unfold getStashes, bind. rewrite git_run. fold (reflogWalk core_git repository (world s)).
  destruct (reflogWalk _ _ _) as [[e|r] w]; simpl; [reflexivity|].
  unfold stashResultOf, ret. destruct (Z.eqb (exitCode r) 128); reflexivity.
Qed.

Lemma getStashes_returned (repository : Repository) (s : Sys World)
      (r : IGitResult) (w : World) :
  reflogWalk core_git repository (world s) = (inr r, w) ->
  getStashes core_git repository s
  = (Returned (stashResultOf r), afterCall s (getStashesCall repository) w).
Proof.
  intros H. rewrite getStashes_run, H. reflexivity.
Qed.

Lemma getStashes_inv (repository : Repository) (s s1 : Sys World)
      (res : StashResult) :
  getStashes core_git repository s = (Returned res, s1) ->
  exists r,
    reflogWalk core_git repository (world s) = (inr r, world s1)
    /\ res = stashResultOf r
    /\ s1 = afterCall s (getStashesCall repository) (world s1).
Proof.
  rewrite getStashes_run.
  destruct (reflogWalk _ _ _) as [[e|r] w]; simpl; intros H;
    inversion H; subst. exists r. auto.
Qed.

(** What the lister reports depends on the store alone. *)
Lemma getStashes_listed (repository : Repository) (s s1 : Sys World)
      (res : StashResult) :
  getStashes core_git repository s = (Returned res, s1) ->
  desktopEntries res = listed core_git repository (world s).
Proof.
  intros H. apply getStashes_inv in H as (r & Hw & -> & _).
  unfold listed. rewrite Hw. reflexivity.
Qed.

Lemma getStashEntryMatchingSha_run (repository : Repository) (sha : jsstring)
      (s : Sys World) :
  getStashEntryMatchingSha core_git repository sha s =
  match getStashes core_git repository s with
  | (Returned res, s1) =>
      (Returned (find (fun e => str_eqb (stashSha e) sha) (desktopEntries res)), s1)
  | (Raised e, s1) => (Raised e, s1)
  end.
Proof.
  unfold getStashEntryMatchingSha, bind.
  destruct (getStashes core_git repository s) as [[res|e] s1]; reflexivity.
Qed.

(** C3: when the reflog walk succeeds (any exit code but the no-such-ref
    one), the total count reported is the number of raw records parsed from
    its output minus one, never that number itself; in particular a walk
    that yields N records ended by NUL gives N - 1. *)
Theorem getStashes_count (repository : Repository) (s : Sys World)
        (r : IGitResult) (w : World) :
  reflogWalk core_git repository (world s) = (inr r, w) ->
  exitCode r <> 128%Z ->
  exists res s1,
    getStashes core_git repository s = (Returned res, s1)
    /\ stashEntryCount res = (Z.of_nat (length (rawEntries (stdout r))) - 1)%Z
    /\ stashEntryCount res <> Z.of_nat (length (rawEntries (stdout r)))
    /\ forall records,
        Forall rawRecord records ->
        stdout r = walkOutput records ->
        stashEntryCount res = (Z.of_nat (length records) - 1)%Z.
Proof.
  intros Hw Hcode.
  exists (stashResultOf r), (afterCall s (getStashesCall repository) w).
  split; [apply getStashes_returned; exact Hw|].
  unfold stashResultOf. apply Z.eqb_neq in Hcode. rewrite Hcode. simpl.
  split; [reflexivity|]. split; [lia|].
  intros records Hrec ->. rewrite rawEntries_walkOutput by assumption.
  reflexivity.
Qed.

(** C6: when the reflog walk reports the no-such-ref exit code, which the
    lister passes to [git] as an accepted one, the lister returns no owned
    entry and a total of zero, and raises nothing. *)
Theorem getStashes_no_stash_ref (repository : Repository) (s : Sys World)
        (r : IGitResult) (w : World) :
  reflogWalk core_git repository (world s) = (inr r, w) ->
  exitCode r = 128%Z ->
  getStashes core_git repository s
  = (Returned (mkStashResult [] 0%Z), afterCall s (getStashesCall repository) w)
  /\ successExitCodes getStashesOptions = Some [0; 128]%Z.
Proof.
  intros Hw Hcode. split; [|reflexivity].
  rewrite (getStashes_returned _ _ _ _ Hw).
  unfold stashResultOf. rewrite Hcode. reflexivity.
Qed.

(** [find] returns the first element that passes the test. *)
Lemma find_first {A : Type} (p : A -> bool) (l : list A) :
  match find p l with
  | Some x =>
      exists before after,
        l = before ++ x :: after /\ p x = true
        /\ forall y, In y before -> p y = false
  | None => forall y, In y l -> p y = false
  end.
Proof.
  induction l as [|a l IH]; simpl.
  - intros y [].
  - destruct (p a) eqn:E.
    + exists [], l. repeat split; auto. intros y [].
    + destruct (find p l) as [x|].
      * destruct IH as (before & after & -> & Hx & Hb).
        exists (a :: before), after. repeat split; auto.
        intros y [<-|Hy]; auto.
      * intros y [<-|Hy]; auto.
Qed.

Lemma StronglySorted_tail {A : Type} (R : A -> A -> Prop) (l1 l2 : list A) :
  StronglySorted R (l1 ++ l2) -> StronglySorted R l2.
Proof.
  induction l1 as [|a l1 IH]; simpl; [auto|].
  intros H. apply StronglySorted_inv in H as [H _]. auto.
Qed.

(** C9: the locator by branch lists, then returns the first owned entry of
    the listed sequence whose branch is the argument, or nothing when there
    is none; when the listed sequence is in LIFO order of creation, this is
    the most recently created owned entry of that branch. *)
Theorem getLastDesktopStashEntryForBranch_first
        (repository : Repository) (branch : jsstring) (s s1 : Sys World)
        (res : StashResult) :
  getStashes core_git repository s = (Returned res, s1) ->
  exists found,
    getLastDesktopStashEntryForBranch core_git repository branch s
    = (Returned found, s1)
    /\ match found with
       | Some e =>
           exists before after,
             desktopEntries res = before ++ e :: after
             /\ branchName e = branch
             /\ forall x, In x before -> branchName x <> branch
       | None => forall x, In x (desktopEntries res) -> branchName x <> branch
       end
    /\ forall created : IStashEntry -> nat,
        StronglySorted (fun a b => created b < created a) (desktopEntries res) ->
        forall e x,
          found = Some e ->
          In x (desktopEntries res) -> branchName x = branch ->
          created x <= created e.
Proof.
  intros H.
  exists (find (fun stash => str_eqb (branchName stash) branch) (desktopEntries res)).
  split.
  { unfold getLastDesktopStashEntryForBranch, bind. rewrite H. reflexivity. }
  pose proof (find_first (fun stash => str_eqb (branchName stash) branch)
                         (desktopEntries res)) as F.
  destruct (find _ (desktopEntries res)) as [e|].
  - destruct F as (before & after & Hl & He & Hb).
    apply str_eqb_eq in He. split.
    + exists before, after. repeat split; auto.
      intros x Hx. apply str_eqb_neq. auto.
    + intros created Hs e' x [= <-] Hx Hbx.
      rewrite Hl in Hs, Hx.
      apply in_app_or in Hx as [Hx|[<-|Hx]].
      * apply Hb in Hx. apply str_eqb_neq in Hx. contradiction.
      * lia.
      * apply StronglySorted_tail in Hs.
        apply StronglySorted_inv in Hs as [_ Hs].
        rewrite Forall_forall in Hs. apply Hs in Hx. lia.
  - split.
    + intros x Hx. apply str_eqb_neq. auto.
    + intros created _ e x [=].
Qed.


(** *** Running the mutators *)

Lemma bind_returned {A B : Type} (c : Promise World A) (k : A -> Promise World B)
      (s s1 : Sys World) (a : A) :
  c s = (Returned a, s1) -> bind c k s = k a s1.
Proof. intros H. unfold bind. rewrite H. reflexivity. Qed.

Lemma bind_raised {A B : Type} (c : Promise World A) (k : A -> Promise World B)
      (s s1 : Sys World) (e : GitError) :
  c s = (Raised e, s1) -> bind c k s = (Raised e, s1).
Proof. intros H. unfold bind. rewrite H. reflexivity. Qed.

Lemma git_returned (args : list jsstring) (dir label : jsstring)
      (options : IGitExecutionOptions) (s : Sys World)
      (r : IGitResult) (w : World) :
  core_git args dir label options (world s) = (inr r, w) ->
  git core_git args dir label options s
  = (Returned r, afterCall s (mkCall args dir label options) w).
Proof. intros H. rewrite git_run, H. reflexivity. Qed.

Lemma git_raised (args : list jsstring) (dir label : jsstring)
      (options : IGitExecutionOptions) (s : Sys World)
      (e : GitError) (w : World) :
  core_git args dir label options (world s) = (inl e, w) ->
  git core_git args dir label options s
  = (Raised e, afterCall s (mkCall args dir label options) w).
Proof. intros H. rewrite git_run, H. reflexivity. Qed.

(** Locating by hash issues the reflog walk and nothing else. *)
Lemma getStashEntryMatchingSha_inv (repository : Repository) (sha : jsstring)
      (s s1 : Sys World) (found : option IStashEntry) :
  getStashEntryMatchingSha core_git repository sha s = (Returned found, s1) ->
  exists res,
    getStashes core_git repository s = (Returned res, s1)
    /\ found = find (fun e => str_eqb (stashSha e) sha) (desktopEntries res)
    /\ calls s1 = calls s ++ [getStashesCall repository]
    /\ infoLog s1 = infoLog s.
Proof.
  rewrite getStashEntryMatchingSha_run.
  destruct (getStashes core_git repository s) as [[res|e] s'] eqn:E;
    intros H; inversion H; subst.
  exists res. repeat split.
  - apply getStashes_inv in E as (_ & _ & _ & ->). reflexivity.
  - apply getStashes_inv in E as (_ & _ & _ & ->). reflexivity.
Qed.

Lemma existsb_false {A : Type} (p : A -> bool) (l : list A) :
  existsb p l = false <-> forall x, In x l -> p x = false.
Proof.
  induction l as [|a l IH]; simpl.
  - split; [intros _ x [] | reflexivity].
  - rewrite orb_false_iff, IH. split.
    + intros [Ha Hl] x [<-|Hx]; auto.
    + intros H; split; auto.
Qed.

Lemma find_none_iff {A : Type} (p : A -> bool) (l : list A) :
  find p l = None <-> forall x, In x l -> p x = false.
Proof.
  split; [apply find_none|].
  intros H. destruct (find p l) as [x|] eqn:E; [|reflexivity].
  apply find_some in E as [Hin Hp]. rewrite (H _ Hin) in Hp. discriminate.
Qed.

(** An entry found by hash is listed by the store it was found in. *)
Lemma located_listsHash (repository : Repository) (sha : jsstring)
      (s s1 : Sys World) (e : IStashEntry) :
  getStashEntryMatchingSha core_git repository sha s = (Returned (Some e), s1) ->
  listsHash core_git repository (world s) sha = true.
Proof.
  intros H. apply getStashEntryMatchingSha_inv in H as (res & Hres & Hf & _).
  symmetry in Hf. apply find_some in Hf as [Hin He].
  unfold listsHash. rewrite <- (getStashes_listed _ _ _ _ Hres).
  apply existsb_exists. eauto.
Qed.

Lemma listsHash_false_absent (repository : Repository) (sha : jsstring)
      (s s1 : Sys World) (res : StashResult) :
  listsHash core_git repository (world s) sha = false ->
  getStashes core_git repository s = (Returned res, s1) ->
  forall x, In x (desktopEntries res) -> stashSha x <> sha.
Proof.
  intros Hl Hres x Hx. rewrite (getStashes_listed _ _ _ _ Hres) in Hx.
  unfold listsHash in Hl. rewrite existsb_false in Hl.
  apply str_eqb_neq. auto.
Qed.

Lemma listsHash_true_present (repository : Repository) (sha : jsstring)
      (s : Sys World) :
  listsHash core_git repository (world s) sha = true ->
  exists res s1,
    getStashes core_git repository s = (Returned res, s1)
    /\ exists x, In x (desktopEntries res) /\ stashSha x = sha.
Proof.
  unfold listsHash, listed. intros H.
  destruct (reflogWalk core_git repository (world s)) as [[err|r] w] eqn:E;
    [discriminate H|].
  exists (stashResultOf r), (afterCall s (getStashesCall repository) w).
  split; [apply getStashes_returned; exact E|].
  apply existsb_exists in H as (x & Hx & Hs).
  exists x. split; [exact Hx | apply str_eqb_eq; exact Hs].
Qed.

Lemma dropDesktopStashEntry_run (repository : Repository) (sha : jsstring)
      (s : Sys World) :
  dropDesktopStashEntry core_git repository sha s =
  match getStashEntryMatchingSha core_git repository sha s with
  | (Returned (Some e), s1) =>
      (match fst (core_git (dropStashArgs (name e)) (path repository)
                           (js "dropStashEntry") noOptions (world s1)) with
       | inl err => Raised err
       | inr _ => Returned tt
       end,
       afterCall s1 (dropStashCall repository (name e))
                 (snd (core_git (dropStashArgs (name e)) (path repository)
                                (js "dropStashEntry") noOptions (world s1))))
  | (Returned None, s1) => (Returned tt, s1)
  | (Raised err, s1) => (Raised err, s1)
  end.
Proof.
  unfold dropDesktopStashEntry at 1. unfold bind at 1.
  destruct (getStashEntryMatchingSha core_git repository sha s)
    as [[[e|]|err] s1]; try reflexivity.
  unfold bind. rewrite git_run.
  destruct (core_git _ _ _ _ _) as [[err|r] w]; reflexivity.
Qed.

Lemma isDropCall_getStashesCall (repository : Repository) :
  isDropCall (getStashesCall repository) = false.
Proof. reflexivity. Qed.

Lemma isDropCall_popStashCall (repository : Repository) (entryName : jsstring) :
  isDropCall (popStashCall repository entryName) = false.
Proof. reflexivity. Qed.

(** C7: when no owned entry matches the hash, dropping is a silent no-op:
    it returns, and the reflog walk of the lookup is the only command
    issued, so no stash-drop command; hence a second drop of the same hash,
    in a store that no longer lists it, changes nothing. *)
Theorem dropDesktopStashEntry_absent_noop
        (repository : Repository) (sha : jsstring) (s s1 : Sys World)
        (res : StashResult) :
  getStashes core_git repository s = (Returned res, s1) ->
  (forall x, In x (desktopEntries res) -> stashSha x <> sha) ->
  dropDesktopStashEntry core_git repository sha s = (Returned tt, s1)
  /\ calls s1 = calls s ++ [getStashesCall repository]
  /\ (forall c, In c (calls s1) -> In c (calls s) \/ isDropCall c = false)
  /\ forall s0,
      dropDesktopStashEntry core_git repository sha s0 = (Returned tt, s) ->
      bind (dropDesktopStashEntry core_git repository sha)
           (fun _ => dropDesktopStashEntry core_git repository sha) s0
      = (Returned tt, s1).
Proof.
  intros Hres Hnone.
  assert (Hfind : find (fun e => str_eqb (stashSha e) sha) (desktopEntries res) = None).
  { apply find_none_iff. intros x Hx. apply str_eqb_neq. auto. }
  assert (Hdrop : dropDesktopStashEntry core_git repository sha s = (Returned tt, s1)).
  { rewrite dropDesktopStashEntry_run, getStashEntryMatchingSha_run, Hres, Hfind.
    reflexivity. }
  assert (Hcalls : calls s1 = calls s ++ [getStashesCall repository]).
  { apply getStashes_inv in Hres as (_ & _ & _ & ->). reflexivity. }
  split; [exact Hdrop|]. split; [exact Hcalls|]. split.
  - intros c Hc. rewrite Hcalls in Hc.
    apply in_app_or in Hc as [Hc|[<-|[]]]; [left; exact Hc|right].
    apply isDropCall_getStashesCall.
  - intros s0 H0. rewrite (bind_returned _ _ _ _ _ H0). exact Hdrop.
Qed.

Lemma NoDup_map_inj {A B : Type} (f : A -> B) (l : list A) (x y : A) :
  NoDup (map f l) -> In x l -> In y l -> f x = f y -> x = y.
Proof.
  induction l as [|a l IH]; simpl; [intros _ []|].
  intros Hnd Hx Hy Hf. inversion Hnd as [|? ? Hnotin Hnd']; subst.
  destruct Hx as [<-|Hx], Hy as [<-|Hy].
  - reflexivity.
  - exfalso. apply Hnotin. rewrite Hf. apply in_map. exact Hy.
  - exfalso. apply Hnotin. rewrite <- Hf. apply in_map. exact Hx.
  - apply IH; assumption.
Qed.

(** An entry found by hash carries the hash and is listed by the store. *)
Lemma located_listed (repository : Repository) (sha : jsstring)
      (s s1 : Sys World) (e : IStashEntry) :
  getStashEntryMatchingSha core_git repository sha s = (Returned (Some e), s1) ->
  In e (listed core_git repository (world s)) /\ stashSha e = sha.
Proof.
  intros H. apply getStashEntryMatchingSha_inv in H as (res & Hres & Hf & _).
  symmetry in Hf. apply find_some in Hf as [Hin He].
  rewrite <- (getStashes_listed _ _ _ _ Hres).
  split; [exact Hin | apply str_eqb_eq; exact He].
Qed.

(** When none is found, the store lists no entry with the hash. *)
Lemma located_none_listed (repository : Repository) (sha : jsstring)
      (s s1 : Sys World) :
  getStashEntryMatchingSha core_git repository sha s = (Returned None, s1) ->
  forall x, In x (listed core_git repository (world s)) -> stashSha x <> sha.
Proof.
  intros H x Hx. apply getStashEntryMatchingSha_inv in H as (res & Hres & Hf & _).
  rewrite <- (getStashes_listed _ _ _ _ Hres) in Hx.
  symmetry in Hf. apply str_eqb_neq. exact (find_none _ _ Hf x Hx).
Qed.

(** Among entries of distinct hashes, those that do not bear the name of an
    entry do not carry its hash. *)
Lemma hash_gone_with_name (entries : list IStashEntry) (e : IStashEntry) :
  NoDup (map stashSha entries) ->
  In e entries ->
  ~ In (stashSha e)
       (map stashSha
            (filter (fun x => negb (str_eqb (name x) (name e))) entries)).
Proof.
  intros Hnd He Hin. apply in_map_iff in Hin as (x & Hsha & Hx).
  apply filter_In in Hx as [Hx Hname].
  assert (x = e) by (apply (NoDup_map_inj stashSha entries); assumption).
  subst x. rewrite str_eqb_refl in Hname. discriminate.
Qed.

(** C1 (amended): when the entry is located and the pop reports exit code 1
    with nothing on standard error, popping logs one line and goes on with
    the drop operation for the same hash, on the store the pop left.

    When the entry is still listed there, the commands issued are the walk,
    the pop, the walk and the stash drop of the current name of an entry
    that carries the hash.  If that command raises, popping raises its
    error.  If it returns, popping returns; and provided the walk left the
    store as it was, the hashes it listed when the drop ran were distinct,
    and it lists afterwards the hashes of exactly the entries that did not
    bear the dropped name, a following listing has no entry with the hash.

    When the entry is already gone from the store the pop left, nothing is
    dropped, and provided the walk left the store as it was a following
    listing has no entry with the hash either. *)
Theorem popStashEntry_compensating_drop
        (repository : Repository) (sha : jsstring) (s s1 : Sys World)
        (e : IStashEntry) (r : IGitResult) (w2 : World) :
  getStashEntryMatchingSha core_git repository sha s = (Returned (Some e), s1) ->
  core_git (popStashArgs (name e)) (path repository) (js "popStashEntry")
           popStashOptions (world s1) = (inr r, w2) ->
  exitCode r = 1%Z ->
  stderr r = [] ->
  let s2 := mkSys w2 (calls s1 ++ [popStashCall repository (name e)])
                  (infoLog s1 ++ [popStashLogLine r]) in
  popStashEntry core_git repository sha s
  = dropDesktopStashEntry core_git repository sha s2
  /\ (forall (e2 : IStashEntry) (s3 : Sys World),
         getStashEntryMatchingSha core_git repository sha s2
         = (Returned (Some e2), s3) ->
         stashSha e2 = sha
         /\ In e2 (listed core_git repository w2)
         /\ calls s3 = calls s ++ [getStashesCall repository;
                                   popStashCall repository (name e);
                                   getStashesCall repository]
         /\ (forall (err : GitError) (w4 : World),
                core_git (dropStashArgs (name e2)) (path repository)
                         (js "dropStashEntry") noOptions (world s3) = (inl err, w4) ->
                popStashEntry core_git repository sha s
                = (Raised err, afterCall s3 (dropStashCall repository (name e2)) w4))
         /\ (forall (r4 : IGitResult) (w4 : World),
                core_git (dropStashArgs (name e2)) (path repository)
                         (js "dropStashEntry") noOptions (world s3) = (inr r4, w4) ->
                let s4 := afterCall s3 (dropStashCall repository (name e2)) w4 in
                popStashEntry core_git repository sha s = (Returned tt, s4)
                /\ (world s3 = w2 ->
                    NoDup (map stashSha (listed core_git repository (world s3))) ->
                    map stashSha (listed core_git repository w4)
                    = map stashSha
                          (filter (fun x => negb (str_eqb (name x) (name e2)))
                                  (listed core_git repository (world s3))) ->
                    forall res s5,
                      getStashes core_git repository s4 = (Returned res, s5) ->
                      forall x, In x (desktopEntries res) -> stashSha x <> sha)))
  /\ (forall s3 : Sys World,
         getStashEntryMatchingSha core_git repository sha s2 = (Returned None, s3) ->
         popStashEntry core_git repository sha s = (Returned tt, s3)
         /\ calls s3 = calls s ++ [getStashesCall repository;
                                   popStashCall repository (name e);
                                   getStashesCall repository]
         /\ (world s3 = w2 ->
             forall res s5,
               getStashes core_git repository s3 = (Returned res, s5) ->
               forall x, In x (desktopEntries res) -> stashSha x <> sha)).
Proof.
  intros H1 H2 Hcode Herr s2.
  assert (Hpop : popStashEntry core_git repository sha s
                 = dropDesktopStashEntry core_git repository sha s2).
  { unfold popStashEntry. cbv zeta.
    rewrite (bind_returned _ _ _ _ _ H1).
    erewrite bind_returned by (apply git_returned; exact H2).
    rewrite Hcode, Herr. simpl. reflexivity. }
  assert (Hcalls : forall found s3,
             getStashEntryMatchingSha core_git repository sha s2
             = (Returned found, s3) ->
             calls s3 = calls s ++ [getStashesCall repository;
                                    popStashCall repository (name e);
                                    getStashesCall repository]).
  { intros found s3 H3.
    apply getStashEntryMatchingSha_inv in H1 as (_ & _ & _ & Hc1 & _).
    apply getStashEntryMatchingSha_inv in H3 as (_ & _ & _ & Hc3 & _).
    rewrite Hc3. unfold s2. simpl. rewrite Hc1, <- !app_assoc. reflexivity. }
  split; [exact Hpop|]. split.
  - intros e2 s3 H3.
    destruct (located_listed repository sha s2 s3 e2 H3) as [Hin Hsha].
    change (world s2) with w2 in Hin.
    split; [exact Hsha|]. split; [exact Hin|].
    split; [exact (Hcalls _ _ H3)|]. split.
    + intros err w4 H4.
      rewrite Hpop, dropDesktopStashEntry_run, H3, H4. reflexivity.
    + intros r4 w4 H4 s4.
      split; [rewrite Hpop, dropDesktopStashEntry_run, H3, H4; reflexivity|].
      intros Hwalk Hnd Hstore res s5 Hres x Hx.
      rewrite Hwalk in Hnd, Hstore.
      rewrite (getStashes_listed _ _ _ _ Hres) in Hx.
      change (world s4) with w4 in Hx.
      intros Hx'. apply (hash_gone_with_name _ e2 Hnd Hin).
      rewrite <- Hstore, Hsha, <- Hx'. apply in_map. exact Hx.
  - intros s3 H3.
    split; [rewrite Hpop, dropDesktopStashEntry_run, H3; reflexivity|].
    split; [exact (Hcalls _ _ H3)|].
    intros Hwalk res s5 Hres x Hx.
    rewrite (getStashes_listed _ _ _ _ Hres), Hwalk in Hx.
    exact (located_none_listed repository sha s2 s3 H3 x Hx).
Qed.

(** C2: when the entry is located and the pop reports exit code 1 with
    something on standard error, popping raises the failure made of that
    result and of the pop command; the walk and the pop are the only
    commands issued, so no drop, nothing is logged, and the store is left as
    the pop left it: when it still lists the entry, and so when the failed
    pop left the store as it was, a following listing reports the entry. *)
Theorem popStashEntry_raises_on_stderr
        (repository : Repository) (sha : jsstring) (s s1 : Sys World)
        (e : IStashEntry) (r : IGitResult) (w2 : World) :
  getStashEntryMatchingSha core_git repository sha s = (Returned (Some e), s1) ->
  core_git (popStashArgs (name e)) (path repository) (js "popStashEntry")
           popStashOptions (world s1) = (inr r, w2) ->
  exitCode r = 1%Z ->
  stderr r <> [] ->
  let s2 := afterCall s1 (popStashCall repository (name e)) w2 in
  popStashEntry core_git repository sha s
  = (Raised (mkGitError r (popStashArgs (name e))), s2)
  /\ calls s2 = calls s ++ [getStashesCall repository;
                            popStashCall repository (name e)]
  /\ (forall c, In c (calls s2) -> In c (calls s) \/ isDropCall c = false)
  /\ infoLog s2 = infoLog s
  /\ world s2 = w2
  /\ (listsHash core_git repository w2 sha = true ->
      exists res s3,
        getStashes core_git repository s2 = (Returned res, s3)
        /\ exists x, In x (desktopEntries res) /\ stashSha x = sha)
  /\ (w2 = world s ->
      exists res s3,
        getStashes core_git repository s2 = (Returned res, s3)
        /\ exists x, In x (desktopEntries res) /\ stashSha x = sha).
Proof.
  intros H1 H2 Hcode Herr s2.
  assert (Hcalls : calls s2 = calls s ++ [getStashesCall repository;
                                          popStashCall repository (name e)]).
  { apply getStashEntryMatchingSha_inv in H1 as (_ & _ & _ & Hc1 & _).
    unfold s2, afterCall. simpl. rewrite Hc1, <- app_assoc. reflexivity. }
  split.
  { unfold popStashEntry. cbv zeta.
    rewrite (bind_returned _ _ _ _ _ H1).
    erewrite bind_returned by (apply git_returned; exact H2).
    rewrite Hcode. destruct (stderr r) eqn:E; [congruence|]. reflexivity. }
  split; [exact Hcalls|]. split.
  { intros c Hc. rewrite Hcalls in Hc.
    apply in_app_or in Hc as [Hc|[<-|[<-|[]]]]; auto. }
  split.
  { apply getStashEntryMatchingSha_inv in H1 as (_ & _ & _ & _ & Hl). exact Hl. }
  split; [reflexivity|]. split.
  { intros Hl. apply (listsHash_true_present repository sha s2). exact Hl. }
  intros Hsame. apply (listsHash_true_present repository sha s2).
  change (world s2) with w2. rewrite Hsame.
  exact (located_listsHash repository sha s s1 e H1).
Qed.

Lemma createDesktopStashEntry_run
      (repository : Repository) (branch : jsstring) (s s1 : Sys World)
      (r : IGitResult) (w2 : World) :
  stageUntrackedFiles core_git repository s = (Returned tt, s1) ->
  core_git (createStashArgs branch) (path repository) (js "createStashEntry")
           createStashOptions (world s1) = (inr r, w2) ->
  createDesktopStashEntry core_git repository branch s =
  if Z.eqb (exitCode r) 1 then
    match errorPrefixRe_exec (stderr r) with
    | Some _ =>
        (Raised (mkGitError r (createStashArgs branch)),
         afterCall s1 (createStashCall repository branch) w2)
    | None =>
        (Returned true,
         mkSys w2 (calls s1 ++ [createStashCall repository branch])
               (infoLog s1 ++ [createStashLogLine r]))
    end
  else (Returned true, afterCall s1 (createStashCall repository branch) w2).
Proof.
  intros H1 H2. unfold createDesktopStashEntry.
  rewrite (bind_returned _ _ _ _ _ H1). cbv zeta.
  erewrite bind_returned by (apply git_returned; exact H2).
  destruct (Z.eqb (exitCode r) 1); [|reflexivity].
  destruct (errorPrefixRe_exec (stderr r)) as [found|] eqn:E; [|reflexivity].
  apply errorPrefixRe_from_some in E. subst found. reflexivity.
Qed.


End StoreProperties.

(* ================================================================= *)
(** ** The theorems on the in-memory store *)

Module Scenarios.
Import MemoryStore.

Lemma getStashes_count_witness :
  exists res s1,
    getStashes git repo (start quietConflict) = (Returned res, s1)
    /\ length (rawEntries (walk 0 threeEntries)) = 3
    /\ length threeRecords = 3
    /\ stashEntryCount res = 2%Z.
Proof.
  assert (Hw : reflogWalk git repo (world (start quietConflict))
               = (inr (mkGitResult 0%Z (walk 0 threeEntries) []), quietConflict))
    by reflexivity.
  destruct (getStashes_count Store git repo (start quietConflict) _ _ Hw)
    as (res & s1 & Hres & Hcount & _ & Hrecords); [discriminate|].
  exists res, s1. split; [exact Hres|]. split; [reflexivity|].
  split; [reflexivity|].
  rewrite (Hrecords threeRecords); [reflexivity| |reflexivity].
  apply rawRecord_forallb. reflexivity.
Defined.

Lemma getStashes_no_stash_ref_witness :
  getStashes git repo (start empty)
  = (Returned (mkStashResult [] 0%Z), walked (start empty)).
Proof.
  refine (proj1 (getStashes_no_stash_ref Store git repo (start empty)
                   (mkGitResult 128%Z []
                      (js "fatal: ambiguous argument 'refs/stash'"))
                   empty _ _)); reflexivity.
Defined.

Lemma getLastDesktopStashEntryForBranch_first_witness :
  exists found s1,
    getLastDesktopStashEntryForBranch git repo (js "topic") (start quietConflict)
    = (Returned found, s1)
    /\ found = Some topicEntry
    /\ forall x,
        In x [mainEntry; topicEntry] -> branchName x = js "topic" ->
        createdAt x <= createdAt topicEntry.
Proof.
  assert (Hw : reflogWalk git repo (world (start quietConflict))
               = (inr (mkGitResult 0%Z (walk 0 threeEntries) []), quietConflict))
    by reflexivity.
  pose proof (getStashes_returned Store git repo (start quietConflict) _ _ Hw) as Hres.
  destruct (getLastDesktopStashEntryForBranch_first
              Store git repo (js "topic") _ _ _ Hres) as (found & Hfound & _ & Hlifo).
  assert (Hrun : getLastDesktopStashEntryForBranch git repo (js "topic")
                                                   (start quietConflict)
                 = (Returned (Some topicEntry), walked (start quietConflict)))
    by reflexivity.
  assert (Hsome : found = Some topicEntry).
  { rewrite Hrun in Hfound. injection Hfound as <-. reflexivity. }
  exists found, (walked (start quietConflict)).
  split; [exact Hfound|]. split; [exact Hsome|].
  intros x Hx Hb.
  apply (Hlifo createdAt); [|exact Hsome|exact Hx|exact Hb].
  change (StronglySorted (fun a b => createdAt b < createdAt a)
                         [mainEntry; topicEntry]).
  repeat constructor.
Defined.

Lemma dropDesktopStashEntry_absent_noop_witness :
  exists s1,
    bind (dropDesktopStashEntry git repo (js "a1"))
         (fun _ => dropDesktopStashEntry git repo (js "a1")) (start calm)
    = (Returned tt, s1)
    /\ map callArgs (filter isDropCall (calls s1)) = [dropStashArgs (positionalRef 2)]
    /\ stack (world s1) = twoEntries.
Proof.
  pose (s := afterCall (walked (start calm)) (dropStashCall repo (positionalRef 2))
                       (withStack calm twoEntries)).
  assert (Hw : reflogWalk git repo (world s)
               = (inr (mkGitResult 0%Z (walk 0 twoEntries) []), world s))
    by reflexivity.
  pose proof (getStashes_returned Store git repo s _ _ Hw) as Hres.
  assert (Hnone : forall x,
             In x (desktopEntries
                     (stashResultOf (mkGitResult 0%Z (walk 0 twoEntries) []))) ->
             stashSha x <> js "a1").
  { apply (listsHash_false_absent Store git repo (js "a1") s _ _ eq_refl Hres). }
  destruct (dropDesktopStashEntry_absent_noop Store git repo (js "a1") s _ _ Hres Hnone)
    as (_ & _ & _ & Htwice).
  exists (walked s). split; [|split; reflexivity].
  apply Htwice. reflexivity.
Defined.

(** C1 (as stated, refuted): on the store whose [stash drop] fails, the
    entry of hash a1 is located and its pop returns exit code 1 with nothing
    on standard error, so every condition of the claim holds; popping issues
    the drop, which raises, popping raises with it, and the listing that
    follows still has the entry. *)
Lemma popStashEntry_entry_survives_failed_drop :
  getStashEntryMatchingSha LockedStore.git repo (js "a1") (start quietConflict)
  = (Returned (Some topicEntry), walked (start quietConflict))
  /\ LockedStore.git (popStashArgs (name topicEntry)) (path repo)
                     (js "popStashEntry") popStashOptions quietConflict
     = (inr (mkGitResult 1%Z [] []), quietConflict)
  /\ fst (popStashEntry LockedStore.git repo (js "a1") (start quietConflict))
     = Raised (mkGitError LockedStore.lockFailure (dropStashArgs (positionalRef 2)))
  /\ map callArgs
         (calls (snd (popStashEntry LockedStore.git repo (js "a1")
                                    (start quietConflict))))
     = [getStashesArgs; popStashArgs (positionalRef 2);
        getStashesArgs; dropStashArgs (positionalRef 2)]
  /\ fst (getStashes LockedStore.git repo
            (snd (popStashEntry LockedStore.git repo (js "a1")
                                (start quietConflict))))
     = Returned (mkStashResult [mainEntry; topicEntry] 2%Z).
Proof.
  repeat split; reflexivity.
Qed.

Lemma popStashEntry_compensating_drop_witness :
  exists s4,
    popStashEntry git repo (js "a1") (start quietConflict) = (Returned tt, s4)
    /\ listsHash git repo (world (start quietConflict)) (js "a1") = true
    /\ forall res s5,
        getStashes git repo s4 = (Returned res, s5) ->
        forall x, In x (desktopEntries res) -> stashSha x <> js "a1".
Proof.
  pose (s1 := walked (start quietConflict)).
  pose (r := mkGitResult 1%Z [] []).
  pose (s2 := mkSys quietConflict
                    (calls s1 ++ [popStashCall repo (name topicEntry)])
                    (infoLog s1 ++ [popStashLogLine r])).
  destruct (popStashEntry_compensating_drop
              Store git repo (js "a1") (start quietConflict) s1 topicEntry r
              quietConflict eq_refl eq_refl eq_refl eq_refl) as (_ & Hdrop & _).
  destruct (Hdrop topicEntry (walked s2) eq_refl) as (_ & _ & _ & _ & Hret).
  destruct (Hret ok (withStack quietConflict twoEntries) eq_refl)
    as (Hpop & Habsent).
  eexists. split; [exact Hpop|]. split; [reflexivity|].
  apply Habsent.
  - reflexivity.
  - change (NoDup [js "c3"; js "a1"]).
    repeat constructor; simpl; intuition discriminate.
  - reflexivity.
Defined.

Lemma popStashEntry_raises_on_stderr_witness :
  exists s2,
    popStashEntry git repo (js "a1") (start loudFailure)
    = (Raised (mkGitError (mkGitResult 1%Z [] (js "error: could not restore"))
                          (popStashArgs (positionalRef 2))), s2)
    /\ filter isDropCall (calls s2) = []
    /\ exists res s3,
        getStashes git repo s2 = (Returned res, s3)
        /\ exists x, In x (desktopEntries res) /\ stashSha x = js "a1".
Proof.
  pose (s1 := walked (start loudFailure)).
  pose (r := mkGitResult 1%Z [] (js "error: could not restore")).
  destruct (popStashEntry_raises_on_stderr
              Store git repo (js "a1") (start loudFailure) s1 topicEntry r
              loudFailure eq_refl eq_refl eq_refl)
    as (Hpop & _ & _ & _ & _ & _ & Hlisted); [discriminate|].
  eexists. split; [exact Hpop|]. split; [reflexivity|].
  apply Hlisted. reflexivity.
Defined.


End Scenarios.

(* ================================================================= *)
(** ** More on splitting and joining *)

Lemma split_nonempty (sep : char16) (s : jsstring) : split sep s <> [].
Proof.
  induction s as [|c s IH]; simpl; [discriminate|].
  destruct (N.eqb c sep); [discriminate|].
  destruct (split sep s); [congruence | discriminate].
Qed.

Lemma split_pieces_no_sep (sep : char16) (s : jsstring) :
  Forall (fun piece => ~ In sep piece) (split sep s).
Proof.
  induction s as [|c s IH]; simpl.
  - constructor; [intros [] | constructor].
  - destruct (N.eqb c sep) eqn:E.
    + constructor; [intros [] | exact IH].
    + apply N.eqb_neq in E.
      destruct (split sep s) as [|piece pieces].
      * constructor; [|constructor]. intros [H|[]]. congruence.
      * inversion IH as [|? ? Hp Hps]; subst.
        constructor; [|exact Hps]. intros [H|H]; [congruence | exact (Hp H)].
Qed.

Lemma split_no_sep (sep : char16) (s : jsstring) :
  ~ In sep s -> split sep s = [s].
Proof.
  induction s as [|c s IH]; intros H; simpl; [reflexivity|].
  simpl in H. destruct (N.eqb c sep) eqn:E.
  - apply N.eqb_eq in E. subst c. tauto.
  - rewrite IH by tauto. reflexivity.
Qed.

Lemma join_cons (sep piece : jsstring) (pieces : list jsstring) :
  pieces <> [] -> join sep (piece :: pieces) = piece ++ sep ++ join sep pieces.
Proof. destruct pieces; [congruence | reflexivity]. Qed.

Lemma join_split (sep : char16) (s : jsstring) : join [sep] (split sep s) = s.
Proof.
  induction s as [|c s IH]; [reflexivity|]. cbn [split].
  pose proof (split_nonempty sep s) as Hne.
  destruct (N.eqb c sep) eqn:E.
  - apply N.eqb_eq in E. subst c.
    rewrite join_cons by assumption. rewrite IH. reflexivity.
  - destruct (split sep s) as [|piece pieces]; [congruence|].
    destruct pieces as [|piece' pieces].
    + simpl in *. congruence.
    + rewrite join_cons by discriminate.
      rewrite join_cons in IH by discriminate.
      rewrite <- IH. reflexivity.
Qed.

Lemma split_join (sep : char16) (pieces : list jsstring) :
  pieces <> [] ->
  Forall (fun piece => ~ In sep piece) pieces ->
  split sep (join [sep] pieces) = pieces.
Proof.
  induction pieces as [|piece pieces IH]; intros Hne Hall; [congruence|].
  inversion Hall as [|? ? Hp Hps]; subst.
  destruct pieces as [|piece' pieces].
  - simpl. apply split_no_sep. exact Hp.
  - rewrite join_cons by discriminate.
    change ([sep] ++ ?x) with (sep :: x).
    rewrite split_record by exact Hp.
    rewrite IH by (discriminate || assumption). reflexivity.
Qed.

Lemma split_three (sep : char16) (entry a b c : jsstring) :
  split sep entry = [a; b; c] <->
  entry = a ++ [sep] ++ b ++ [sep] ++ c
  /\ ~ In sep a /\ ~ In sep b /\ ~ In sep c.
Proof.
  split.
  - intros H. pose proof (join_split sep entry) as J.
    pose proof (split_pieces_no_sep sep entry) as F.
    rewrite H in J, F. simpl in J.
    inversion F as [|? ? Ha F1]; subst. inversion F1 as [|? ? Hb F2]; subst.
    inversion F2 as [|? ? Hc _]; subst. auto.
  - intros (-> & Ha & Hb & Hc).
    apply (split_join sep [a; b; c]); [discriminate|].
    repeat constructor; assumption.
Qed.

Lemma walkOutput_join (records : list jsstring) :
  records <> [] -> walkOutput records = join [0%N] records ++ [0%N].
Proof.
  unfold walkOutput.
  induction records as [|record records IH]; intros Hne; [congruence|].
  destruct records as [|record' records].
  - simpl. rewrite app_nil_r. reflexivity.
  - rewrite join_cons by discriminate.
    change (concat (map ?f (record :: ?l))) with (f record ++ concat (map f l)).
    rewrite IH by discriminate.
    rewrite <- !app_assoc. reflexivity.
Qed.

Lemma firstn_all_but_last (s : jsstring) (c : char16) :
  firstn (length (s ++ [c]) - 1) (s ++ [c]) = s.
Proof.
  rewrite length_app. simpl.
  replace (length s + 1 - 1) with (length s + 0) by lia.
  rewrite firstn_app_2. simpl. apply app_nil_r.
Qed.

(** X14: splitting on a separator of one code unit and joining with it are
    inverse of each other: the pieces of a split hold no separator and join
    back to the text, and pieces without separator, at least one, are what
    the split of their join returns. *)
Theorem split_join_inverse :
  (forall sep s,
      join [sep] (split sep s) = s
      /\ split sep s <> []
      /\ Forall (fun piece => ~ In sep piece) (split sep s))
  /\ (forall sep pieces,
         pieces <> [] ->
         Forall (fun piece => ~ In sep piece) pieces ->
         split sep (join [sep] pieces) = pieces).
Proof.
  split.
  - intros sep s. split; [apply join_split|].
    split; [apply split_nonempty | apply split_pieces_no_sep].
  - exact split_join.
Qed.

Lemma split_join_inverse_witness :
  split 0%N (join [0%N] [js "new.txt"; js ""; js "docs/notes.md"])
  = [js "new.txt"; js ""; js "docs/notes.md"].
Proof.
  apply (proj2 split_join_inverse); [discriminate|].
  repeat constructor; simpl; intuition discriminate.
Defined.

(* ================================================================= *)
(** ** The parse of one record *)

Lemma delimiterCode_value : delimiterCode = fieldDelimiter.
Proof. reflexivity. Qed.

Lemma pushEntry_acc (files : StashedFileChanges) (acc : list IStashEntry)
      (entry : jsstring) :
  pushEntry files acc entry = acc ++ pushEntry files [] entry.
Proof.
  unfold pushEntry.
  destruct (Nat.eqb (length (split delimiterCode entry)) 3);
    [|symmetry; apply app_nil_r].
  destruct (split delimiterCode entry) as [|a [|b [|c [|d rest]]]];
    try (symmetry; apply app_nil_r).
  destruct (extractBranchFromMessage c); [reflexivity|].
  symmetry; apply app_nil_r.
Qed.

(** The loop pushes, record after record, what each record gives. *)
Lemma fold_pushEntry (files : StashedFileChanges) (entries : list jsstring)
      (acc : list IStashEntry) :
  fold_left (pushEntry files) entries acc
  = acc ++ flat_map (pushEntry files []) entries.
Proof.
  revert acc; induction entries as [|entry entries IH]; intros acc; simpl.
  - symmetry; apply app_nil_r.
  - rewrite IH, pushEntry_acc, <- app_assoc. reflexivity.
Qed.

Lemma pushEntry_length (files : StashedFileChanges) (entry : jsstring) :
  length (pushEntry files [] entry) <= 1.
Proof.
  unfold pushEntry.
  destruct (Nat.eqb (length (split delimiterCode entry)) 3); [|simpl; lia].
  destruct (split delimiterCode entry) as [|a [|b [|c [|d rest]]]];
    try (simpl; lia).
  destruct (extractBranchFromMessage c); simpl; lia.
Qed.

Lemma pushEntry_In (payload : StashedFileChanges) (entry : jsstring)
      (e : IStashEntry) :
  In e (pushEntry payload [] entry) <->
  exists message,
    entry = name e ++ [fieldDelimiter] ++ stashSha e ++ [fieldDelimiter] ++ message
    /\ ~ In fieldDelimiter (name e)
    /\ ~ In fieldDelimiter (stashSha e)
    /\ ~ In fieldDelimiter message
    /\ extractBranchFromMessage message = Some (branchName e)
    /\ files e = payload.
Proof.
  unfold pushEntry. rewrite delimiterCode_value. split.
  - destruct (split fieldDelimiter entry) as [|a [|b [|c [|d rest]]]] eqn:E;
      simpl; try contradiction.
    destruct (extractBranchFromMessage c) as [branch|] eqn:X; simpl;
      [|contradiction].
    intros [<-|[]]. simpl.
    apply split_three in E as (-> & Ha & Hb & Hc).
    exists c. auto 10.
  - intros (message & -> & Ha & Hb & Hc & X & F).
    rewrite (proj2 (split_three fieldDelimiter _ (name e) (stashSha e) message))
      by auto.
    simpl. rewrite X. left. destruct e; simpl in *; subst. reflexivity.
Qed.

Lemma pushEntry_reflogRecord (t : jsstring * jsstring * jsstring) :
  cleanRecord t -> pushEntry NotLoaded [] (reflogRecord t) = ownedEntryOf t.
Proof.
  destruct t as [[entryName sha] subject]. intros ([Hn _] & [Hs _] & [Hm _]).
  unfold pushEntry, reflogRecord, ownedEntryOf. rewrite delimiterCode_value.
  rewrite (proj2 (split_three fieldDelimiter _ entryName sha subject)) by auto.
  reflexivity.
Qed.

(* ================================================================= *)
(** ** More on the entry codec *)

Lemma createDesktopStashMessage_length (b : jsstring) :
  length (createDesktopStashMessage b) = 18 + length b.
Proof.
  unfold createDesktopStashMessage. rewrite !length_app. simpl. lia.
Qed.

(** Before a text without opening bracket ends, the pattern cannot start. *)
Lemma desktopStashEntryMessageRe_at_prefix (prefix rest : jsstring) :
  prefix <> [] ->
  ~ In openingDelimiter prefix ->
  desktopStashEntryMessageRe_at (prefix ++ DesktopStashEntryMarker ++ rest) = None.
Proof.
  intros Hne Hno. unfold desktopStashEntryMessageRe_at.
  destruct (literal _ _) as [r|] eqn:L; [|reflexivity].
  exfalso. apply literal_sound in L.
  assert (N : nth_error (prefix ++ DesktopStashEntryMarker ++ rest) 16
              = Some openingDelimiter) by (rewrite L; reflexivity).
  destruct (Nat.lt_ge_cases 16 (length prefix)) as [Hlt|Hge].
  - rewrite nth_error_app1 in N by exact Hlt.
    apply nth_error_In in N. contradiction.
  - rewrite nth_error_app2 in N by exact Hge.
    assert (Hpos : 0 < length prefix) by (destruct prefix; [congruence | simpl; lia]).
    rewrite nth_error_app1 in N
      by (change (length DesktopStashEntryMarker) with 16; lia).
    apply nth_error_In in N. unfold openingDelimiter in N. simpl in N.
    intuition discriminate.
Qed.

(** [exec] returns the leftmost match. *)
Lemma desktopStashEntryMessageRe_exec_leftmost (message : jsstring)
      (m : RegExpExecArray) :
  desktopStashEntryMessageRe_exec message = Some m ->
  exists before,
    message = before ++ createDesktopStashMessage (group1 m)
    /\ forall before' b',
        message = before' ++ createDesktopStashMessage b' ->
        b' <> [] -> hasNoLineTerminator b' ->
        length before <= length before'.
Proof.
  induction message as [|c message IH]; [discriminate|].
  cbn [desktopStashEntryMessageRe_exec].
  destruct (desktopStashEntryMessageRe_at (c :: message)) as [m'|] eqn:E.
  - intros H; injection H as ->.
    apply desktopStashEntryMessageRe_at_iff in E as (E & _).
    exists []. split; [exact E|]. intros; simpl; lia.
  - intros H. destruct (IH H) as (before & -> & Hmin).
    exists (c :: before). split; [reflexivity|].
    intros before' b' Hb Hne Hlt. destruct before' as [|c' before'].
    + exfalso.
      assert (X : desktopStashEntryMessageRe_at (c :: before ++ createDesktopStashMessage (group1 m))
                  = Some (mkExec (c :: before ++ createDesktopStashMessage (group1 m)) b')).
      { apply desktopStashEntryMessageRe_at_iff. simpl. auto. }
      congruence.
    + injection Hb as -> Hb. simpl. apply le_n_S. eapply Hmin; eauto.
Qed.

(** X13: a message made of any text without opening bracket followed by the
    marker message of a branch name decodes to that name, when the name is
    not empty and has no line terminator; so the marker is found behind the
    prefix a reflog subject puts before it. *)
Theorem extractBranchFromMessage_after_prefix (prefix b : jsstring) :
  ~ In openingDelimiter prefix ->
  b <> [] ->
  hasNoLineTerminator b ->
  extractBranchFromMessage (prefix ++ createDesktopStashMessage b) = Some b.
Proof.
  intros Hno Hne Hb. induction prefix as [|c prefix IH].
  - apply extract_create; assumption.
  - unfold extractBranchFromMessage.
    change ((c :: prefix) ++ ?x) with (c :: prefix ++ x).
    cbn [desktopStashEntryMessageRe_exec].
    assert (E : desktopStashEntryMessageRe_at (c :: prefix ++ createDesktopStashMessage b)
                = None).
    { apply (desktopStashEntryMessageRe_at_prefix (c :: prefix)
               (js "<" ++ b ++ js ">")); [discriminate | exact Hno]. }
    rewrite E. apply IH. intros H. apply Hno. right. exact H.
Qed.

Lemma extractBranchFromMessage_after_prefix_witness :
  extractBranchFromMessage (js "On topic: " ++ createDesktopStashMessage (js "topic"))
  = Some (js "topic").
Proof.
  apply extractBranchFromMessage_after_prefix.
  - unfold openingDelimiter; simpl; intuition discriminate.
  - discriminate.
  - apply hasNoLineTerminator_forallb; reflexivity.
Defined.

(** X15: what decodes was encoded: a message that decodes to a name ends
    with the marker message of that name, and the name is not empty, has no
    line terminator and is the longest such name the message ends with the
    marker message of. *)
Theorem extractBranchFromMessage_sound (message b : jsstring) :
  extractBranchFromMessage message = Some b ->
  (exists before, message = before ++ createDesktopStashMessage b)
  /\ b <> []
  /\ hasNoLineTerminator b
  /\ forall before' b',
      message = before' ++ createDesktopStashMessage b' ->
      b' <> [] -> hasNoLineTerminator b' ->
      length b' <= length b.
Proof.
  unfold extractBranchFromMessage, branchOfMatch.
  destruct (desktopStashEntryMessageRe_exec message) as [m|] eqn:E; [|discriminate].
  destruct (Nat.eqb (length (group1 m)) 0); [discriminate|].
  intros H; injection H as <-.
  destruct (desktopStashEntryMessageRe_exec_sound _ E) as (_ & _ & Hne & Hlt).
  destruct (desktopStashEntryMessageRe_exec_leftmost _ _ E) as (before & Hm & Hmin).
  split; [exists before; exact Hm|]. split; [exact Hne|]. split; [exact Hlt|].
  intros before' b' Hm' Hne' Hlt'.
  pose proof (Hmin before' b' Hm' Hne' Hlt') as Hle.
  assert (L : length (before ++ createDesktopStashMessage (group1 m))
              = length (before' ++ createDesktopStashMessage b'))
    by (rewrite <- Hm, <- Hm'; reflexivity).
  rewrite !length_app, !createDesktopStashMessage_length in L. lia.
Qed.

Lemma extractBranchFromMessage_sound_witness :
  exists before,
    js "On main: !!GitHub_Desktop<a>!!GitHub_Desktop<b>"
    = before ++ createDesktopStashMessage (js "a>!!GitHub_Desktop<b").
Proof.
  apply (extractBranchFromMessage_sound
           (js "On main: !!GitHub_Desktop<a>!!GitHub_Desktop<b>")
           (js "a>!!GitHub_Desktop<b")).
  reflexivity.
Defined.

(* ================================================================= *)
(** ** More on the records of the reflog walk *)

Lemma rawEntries_nil_iff (out : jsstring) :
  rawEntries out = [] <-> Forall (eq 0%N) out.
Proof.
  unfold rawEntries. induction out as [|c out IH].
  - simpl. split; [constructor | reflexivity].
  - cbn [split]. destruct (N.eqb c 0) eqn:E.
    + apply N.eqb_eq in E. subst c. simpl. rewrite IH. split.
      * intros H. constructor; [reflexivity | exact H].
      * intros H. inversion H; assumption.
    + apply N.eqb_neq in E.
      pose proof (split_nonempty 0%N out) as Hne.
      destruct (split 0%N out) as [|piece pieces]; [congruence|].
      simpl. split; [discriminate|].
      intros H. inversion H; subst. congruence.
Qed.

Lemma rawEntries_no_nul (out record : jsstring) :
  In record (rawEntries out) -> ~ In 0%N record.
Proof.
  unfold rawEntries. intros H. apply filter_In in H as [H _].
  pose proof (split_pieces_no_sep 0%N out) as F.
  rewrite Forall_forall in F. exact (F _ H).
Qed.

Lemma rawEntries_length_flat_map (files : StashedFileChanges) (entries : list jsstring) :
  length (flat_map (pushEntry files []) entries) <= length entries.
Proof.
  induction entries as [|entry entries IH]; simpl; [lia|].
  rewrite length_app. pose proof (pushEntry_length files entry). lia.
Qed.

Lemma rawRecord_reflogRecord (t : jsstring * jsstring * jsstring) :
  cleanRecord t -> rawRecord (reflogRecord t).
Proof.
  destruct t as [[entryName sha] subject].
  intros ([_ Hn] & [_ Hs] & [_ Hm]). unfold rawRecord, reflogRecord. split.
  - destruct entryName; discriminate.
  - intros H. unfold fieldDelimiter in H.
    repeat (apply in_app_or in H as [H|H]); simpl in H;
      intuition discriminate.
Qed.

Lemma flat_map_reflogRecord (triples : list (jsstring * jsstring * jsstring)) :
  Forall cleanRecord triples ->
  flat_map (pushEntry NotLoaded []) (map reflogRecord triples)
  = flat_map ownedEntryOf triples.
Proof.
  induction 1 as [|t triples Ht _ IH]; simpl; [reflexivity|].
  rewrite pushEntry_reflogRecord by exact Ht. rewrite IH. reflexivity.
Qed.

Lemma desktopEntries_stashResultOf (r : IGitResult) :
  exitCode r <> 128%Z ->
  desktopEntries (stashResultOf r)
  = flat_map (pushEntry NotLoaded []) (rawEntries (stdout r)).
Proof.
  intros H. unfold stashResultOf. apply Z.eqb_neq in H. rewrite H. simpl.
  apply fold_pushEntry.
Qed.

Lemma stashEntryCount_stashResultOf (r : IGitResult) :
  exitCode r <> 128%Z ->
  stashEntryCount (stashResultOf r)
  = (Z.of_nat (length (rawEntries (stdout r))) - 1)%Z.
Proof.
  intros H. unfold stashResultOf. apply Z.eqb_neq in H. rewrite H. reflexivity.
Qed.

(** The owned entries of a listing, record by record. *)
Lemma desktopEntries_In (r : IGitResult) (e : IStashEntry) :
  In e (desktopEntries (stashResultOf r)) <->
  exitCode r <> 128%Z
  /\ exists message,
      In (name e ++ [fieldDelimiter] ++ stashSha e ++ [fieldDelimiter] ++ message)
         (rawEntries (stdout r))
      /\ ~ In fieldDelimiter (name e)
      /\ ~ In fieldDelimiter (stashSha e)
      /\ ~ In fieldDelimiter message
      /\ extractBranchFromMessage message = Some (branchName e)
      /\ files e = NotLoaded.
Proof.
  destruct (Z.eq_dec (exitCode r) 128) as [Heq|Hne].
  - unfold stashResultOf. rewrite Heq. simpl. split; [contradiction|].
    intros [H _]. congruence.
  - rewrite (desktopEntries_stashResultOf r Hne), in_flat_map. split.
    + intros (entry & Hin & He). split; [exact Hne|].
      apply pushEntry_In in He as (message & -> & Hrest).
      exists message. split; [exact Hin | exact Hrest].
    + intros (_ & message & Hin & Hrest).
      eexists. split; [exact Hin|]. apply pushEntry_In. exists message.
      split; [reflexivity | exact Hrest].
Qed.

(** What holds of every owned entry of a listing. *)
Lemma desktopEntries_wellformed (r : IGitResult) (e : IStashEntry) :
  In e (desktopEntries (stashResultOf r)) ->
  branchName e <> []
  /\ hasNoLineTerminator (branchName e)
  /\ files e = NotLoaded
  /\ cleanField (name e)
  /\ cleanField (stashSha e)
  /\ cleanField (branchName e).
Proof.
  intros Hin.
  apply desktopEntries_In in Hin
    as (_ & message & Hrec & Hn & Hs & Hm & Hx & Hf).
  apply rawEntries_no_nul in Hrec.
  assert (Hsound : exists before,
             message = before ++ createDesktopStashMessage (branchName e)
             /\ branchName e <> [] /\ hasNoLineTerminator (branchName e)).
  { unfold extractBranchFromMessage, branchOfMatch in Hx.
    destruct (desktopStashEntryMessageRe_exec message) as [m|] eqn:E; [|discriminate].
    destruct (Nat.eqb (length (group1 m)) 0); [discriminate|].
    injection Hx as <-.
    destruct (desktopStashEntryMessageRe_exec_sound _ E) as (before & Hb & Hne & Hlt).
    exists before. auto. }
  destruct Hsound as (before & Hmsg & Hne & Hlt).
  assert (Hsub : forall c, In c (branchName e) -> In c message).
  { intros c Hc. rewrite Hmsg. unfold createDesktopStashMessage.
    apply in_or_app. right. apply in_or_app. right.
    apply in_or_app. right. apply in_or_app. left. exact Hc. }
  assert (Hmnul : ~ In 0%N message).
  { intros H. apply Hrec. apply in_or_app. right. apply in_or_app. right.
    apply in_or_app. right. apply in_or_app. right. exact H. }
  split; [exact Hne|]. split; [exact Hlt|]. split; [exact Hf|].
  unfold cleanField. repeat split; auto.
  - intros H. apply Hrec. apply in_or_app. left. exact H.
  - intros H. apply Hrec. apply in_or_app. right. apply in_or_app. right.
    apply in_or_app. left. exact H.
Qed.

Section MoreListerProperties.

Variable World : Type.
Variable core_git :
  list jsstring -> jsstring -> jsstring -> IGitExecutionOptions ->
  World -> (GitError + IGitResult) * World.

(** X1: when the reflog walk succeeds, an entry is among the owned entries
    exactly when one of the raw records is its name, its hash and a subject,
    joined by the field delimiter and each free of it, and the subject
    decodes to its branch; its payload is the not-loaded placeholder.  So a
    record with another number of fields, or with a subject that does not
    decode, gives no entry. *)
Theorem getStashes_entries_iff (repository : Repository) (s : Sys World)
        (r : IGitResult) (w : World) :
  reflogWalk core_git repository (world s) = (inr r, w) ->
  exitCode r <> 128%Z ->
  exists res,
    getStashes core_git repository s
    = (Returned res, afterCall s (getStashesCall repository) w)
    /\ forall e,
        In e (desktopEntries res) <->
        exists message,
          In (name e ++ [fieldDelimiter] ++ stashSha e ++ [fieldDelimiter] ++ message)
             (rawEntries (stdout r))
          /\ ~ In fieldDelimiter (name e)
          /\ ~ In fieldDelimiter (stashSha e)
          /\ ~ In fieldDelimiter message
          /\ extractBranchFromMessage message = Some (branchName e)
          /\ files e = NotLoaded.
Proof.
  intros Hw Hcode. exists (stashResultOf r).
  split; [apply getStashes_returned; exact Hw|].
  intros e. rewrite desktopEntries_In. split.
  - intros [_ H]. exact H.
  - intros H. split; [exact Hcode | exact H].
Qed.

(** X2: every owned entry of a listing has a branch name that is not empty
    and has no line terminator, the not-loaded payload, and a name, a hash
    and a branch name free of the field delimiter and of the record
    terminator. *)
Theorem getStashes_entries_wellformed (repository : Repository) (s s1 : Sys World)
        (res : StashResult) (e : IStashEntry) :
  getStashes core_git repository s = (Returned res, s1) ->
  In e (desktopEntries res) ->
  branchName e <> []
  /\ hasNoLineTerminator (branchName e)
  /\ files e = NotLoaded
  /\ cleanField (name e)
  /\ cleanField (stashSha e)
  /\ cleanField (branchName e).
Proof.
  intros Hres Hin.
  apply getStashes_inv in Hres as (r & _ & -> & _).
  apply (desktopEntries_wellformed r). exact Hin.
Qed.

(** X3: when the reflog walk succeeds, the owned entries are at most one
    more than the total reported, the total is at least -1, and it is -1
    exactly when the output has no record at all (it is empty or made of
    record terminators only). *)
Theorem getStashes_count_bounds (repository : Repository) (s : Sys World)
        (r : IGitResult) (w : World) :
  reflogWalk core_git repository (world s) = (inr r, w) ->
  exitCode r <> 128%Z ->
  exists res,
    getStashes core_git repository s
    = (Returned res, afterCall s (getStashesCall repository) w)
    /\ (Z.of_nat (length (desktopEntries res)) <= stashEntryCount res + 1)%Z
    /\ (-1 <= stashEntryCount res)%Z
    /\ (stashEntryCount res = (-1)%Z <-> Forall (eq 0%N) (stdout r)).
Proof.
  intros Hw Hcode. exists (stashResultOf r).
  split; [apply getStashes_returned; exact Hw|].
  rewrite (desktopEntries_stashResultOf r Hcode),
          (stashEntryCount_stashResultOf r Hcode).
  pose proof (rawEntries_length_flat_map NotLoaded (rawEntries (stdout r))) as Hle.
  split; [lia|]. split; [lia|].
  rewrite <- rawEntries_nil_iff. split.
  - intros H. destruct (rawEntries (stdout r)); [reflexivity|].
    cbn [length] in H. lia.
  - intros ->. reflexivity.
Qed.

(** X4: when the output of a successful walk is a sequence of records of
    three clean fields, each ended by the record terminator, the owned
    entries are, in the order of the records, the entries of the records
    whose subject decodes, each with the name and the hash of its record, and
    the total is the number of records minus one. *)
Theorem getStashes_walkOutput (repository : Repository) (s : Sys World)
        (r : IGitResult) (w : World)
        (triples : list (jsstring * jsstring * jsstring)) :
  reflogWalk core_git repository (world s) = (inr r, w) ->
  exitCode r <> 128%Z ->
  Forall cleanRecord triples ->
  stdout r = walkOutput (map reflogRecord triples) ->
  getStashes core_git repository s
  = (Returned (mkStashResult (flat_map ownedEntryOf triples)
                             (Z.of_nat (length triples) - 1)%Z),
     afterCall s (getStashesCall repository) w).
Proof.
  intros Hw Hcode Hclean Hout.
  rewrite (getStashes_returned World core_git repository s r w Hw).
  f_equal. f_equal.
  assert (Hraw : rawEntries (stdout r) = map reflogRecord triples).
  { rewrite Hout. apply rawEntries_walkOutput.
    apply Forall_forall. intros record Hin.
    apply in_map_iff in Hin as (t & <- & Ht).
    apply rawRecord_reflogRecord. rewrite Forall_forall in Hclean. auto. }
  pose proof (desktopEntries_stashResultOf r Hcode) as Hd.
  pose proof (stashEntryCount_stashResultOf r Hcode) as Hc.
  rewrite Hraw in Hd, Hc. rewrite length_map in Hc.
  rewrite (flat_map_reflogRecord triples Hclean) in Hd.
  destruct (stashResultOf r) as [entries total]. simpl in *. subst. reflexivity.
Qed.


(** X6: the locator by hash lists, then returns the first owned entry of the
    listed sequence whose hash is the argument, or nothing when there is
    none; when the hashes of the listed entries are all distinct, it is the
    only entry with that hash. *)
Theorem getStashEntryMatchingSha_first (repository : Repository) (sha : jsstring)
        (s s1 : Sys World) (res : StashResult) :
  getStashes core_git repository s = (Returned res, s1) ->
  exists found,
    getStashEntryMatchingSha core_git repository sha s = (Returned found, s1)
    /\ match found with
       | Some e =>
           exists before after,
             desktopEntries res = before ++ e :: after
             /\ stashSha e = sha
             /\ forall x, In x before -> stashSha x <> sha
       | None => forall x, In x (desktopEntries res) -> stashSha x <> sha
       end
    /\ (NoDup (map stashSha (desktopEntries res)) ->
        forall e x,
          found = Some e -> In x (desktopEntries res) -> stashSha x = sha ->
          x = e).
Proof.
  intros H.
  exists (find (fun e => str_eqb (stashSha e) sha) (desktopEntries res)).
  split; [rewrite getStashEntryMatchingSha_run, H; reflexivity|].
  pose proof (find_first (fun e => str_eqb (stashSha e) sha) (desktopEntries res)) as F.
  destruct (find _ (desktopEntries res)) as [e|].
  - destruct F as (before & after & Hl & He & Hb). apply str_eqb_eq in He. split.
    + exists before, after. repeat split; auto.
      intros x Hx. apply str_eqb_neq. auto.
    + intros Hnd e' x [= <-] Hx Hsx. rewrite Hl in Hnd, Hx.
      rewrite map_app in Hnd. simpl in Hnd.
      apply in_app_or in Hx as [Hx|[Hx|Hx]].
      * apply Hb in Hx. apply str_eqb_neq in Hx. contradiction.
      * symmetry. exact Hx.
      * exfalso. apply NoDup_remove_2 in Hnd. apply Hnd.
        apply in_or_app. right. rewrite He, <- Hsx. apply in_map. exact Hx.
  - split.
    + intros x Hx. apply str_eqb_neq. auto.
    + intros _ e x [=].
Qed.

(** X16: the locator by branch returns nothing for a branch name that no
    owned entry can carry: the empty name, and any name with a line
    terminator, a field delimiter or a record terminator in it. *)
Theorem getLastDesktopStashEntryForBranch_unlistable
        (repository : Repository) (branch : jsstring) (s s1 : Sys World)
        (res : StashResult) :
  getStashes core_git repository s = (Returned res, s1) ->
  branch = []
  \/ (exists c, In c branch
                /\ (isLineTerminator c = true \/ c = fieldDelimiter \/ c = 0%N)) ->
  getLastDesktopStashEntryForBranch core_git repository branch s
  = (Returned None, s1).
Proof.
  intros Hres Hbad. unfold getLastDesktopStashEntryForBranch.
  rewrite (bind_returned World _ _ _ _ _ Hres). unfold ret, findOrNull.
  f_equal. f_equal. apply find_none_iff. intros x Hx. apply str_eqb_neq.
  apply getStashes_inv in Hres as (r & _ & -> & _).
  apply desktopEntries_wellformed in Hx
    as (Hne & Hlt & _ & _ & _ & [Hd Hn]).
  intros Heq. rewrite Heq in Hne, Hlt, Hd, Hn.
  destruct Hbad as [-> | (c & Hc & [Ht | [-> | ->]])].
  - congruence.
  - rewrite (Hlt c Hc) in Ht. discriminate.
  - contradiction.
  - contradiction.
Qed.

End MoreListerProperties.

(* ================================================================= *)
(** ** More on the mutators *)

Section MoreMutatorProperties.

Variable World : Type.
Variable core_git :
  list jsstring -> jsstring -> jsstring -> IGitExecutionOptions ->
  World -> (GitError + IGitResult) * World.

(** Locating by hash issues the reflog walk and nothing else, however it
    ends. *)
Lemma getStashEntryMatchingSha_frame (repository : Repository) (sha : jsstring)
      (s : Sys World) :
  calls (snd (getStashEntryMatchingSha core_git repository sha s))
  = calls s ++ [getStashesCall repository]
  /\ infoLog (snd (getStashEntryMatchingSha core_git repository sha s)) = infoLog s.
Proof.
  rewrite getStashEntryMatchingSha_run, getStashes_run.
  destruct (reflogWalk core_git repository (world s)) as [[err|r] w];
    split; reflexivity.
Qed.

Lemma popStashEntry_run (repository : Repository) (sha : jsstring) (s : Sys World) :
  popStashEntry core_git repository sha s =
  match getStashEntryMatchingSha core_git repository sha s with
  | (Returned (Some e), s1) =>
      match core_git (popStashArgs (name e)) (path repository)
                     (js "popStashEntry") popStashOptions (world s1) with
      | (inl err, w2) =>
          (Raised err, afterCall s1 (popStashCall repository (name e)) w2)
      | (inr r, w2) =>
          if Z.eqb (exitCode r) 1 then
            if Nat.ltb 0 (length (stderr r)) then
              (Raised (mkGitError r (popStashArgs (name e))),
               afterCall s1 (popStashCall repository (name e)) w2)
            else
              dropDesktopStashEntry core_git repository sha
                (mkSys w2 (calls s1 ++ [popStashCall repository (name e)])
                       (infoLog s1 ++ [popStashLogLine r]))
          else (Returned tt, afterCall s1 (popStashCall repository (name e)) w2)
      end
  | (Returned None, s1) => (Returned tt, s1)
  | (Raised err, s1) => (Raised err, s1)
  end.
Proof.
  unfold popStashEntry at 1. cbv zeta. unfold bind at 1.
  destruct (getStashEntryMatchingSha core_git repository sha s)
    as [[[e|]|err] s1]; try reflexivity.
  unfold bind at 1. rewrite git_run.
  change (core_git [js "stash"; js "pop"; js "--quiet"; name e] (path repository)
                   (js "popStashEntry")
                   (mkOptions (Some [0%Z; 1%Z]) (Some [MergeConflicts])) (world s1))
    with (core_git (popStashArgs (name e)) (path repository) (js "popStashEntry")
                   popStashOptions (world s1)).
  destruct (core_git (popStashArgs (name e)) _ _ _ _) as [[err|r] w2];
    [reflexivity|].
  cbn [fst snd].
  destruct (Z.eqb (exitCode r) 1); [|reflexivity].
  destruct (Nat.ltb 0 (length (stderr r))); reflexivity.
Qed.

Lemma stageUntrackedFiles_run (repository : Repository) (s : Sys World) :
  stageUntrackedFiles core_git repository s =
  match core_git [js "ls-files"; js "-z"; js "--others"; js "--exclude-standard"]
                 (path repository) (js "getUntrackedFilesToStage") noOptions
                 (world s) with
  | (inl err, w) => (Raised err, afterCall s (lsFilesCall repository) w)
  | (inr r, w) =>
      let s1 := afterCall s (lsFilesCall repository) w in
      if negb (Nat.eqb (length (stdout r)) 0) then
        let untrackedFiles :=
            split 0%N (firstn (length (stdout r) - 1) (stdout r)) in
        match core_git (js "add" :: untrackedFiles) (path repository)
                       (js "stageUntrackedFiles") noOptions w with
        | (inl err, w') =>
            (Raised err, afterCall s1 (addCall repository untrackedFiles) w')
        | (inr _, w') =>
            (Returned tt, afterCall s1 (addCall repository untrackedFiles) w')
        end
      else (Returned tt, s1)
  end.
Proof.
  unfold stageUntrackedFiles. unfold bind at 1. rewrite git_run.
  destruct (core_git _ _ _ _ (world s)) as [[err|r] w]; [reflexivity|].
  cbn [fst snd]. cbv zeta.
  destruct (negb (Nat.eqb (length (stdout r)) 0)); [|reflexivity].
  unfold bind. rewrite git_run. cbn [world afterCall].
  destruct (core_git _ _ _ _ w) as [[err|r'] w']; reflexivity.
Qed.

(** X7: when no owned entry matches the hash, popping is a silent no-op: it
    returns, the reflog walk of the lookup is the only command issued (no
    pop, no drop) and nothing is logged. *)
Theorem popStashEntry_absent_noop (repository : Repository) (sha : jsstring)
        (s s1 : Sys World) (res : StashResult) :
  getStashes core_git repository s = (Returned res, s1) ->
  (forall x, In x (desktopEntries res) -> stashSha x <> sha) ->
  popStashEntry core_git repository sha s = (Returned tt, s1)
  /\ calls s1 = calls s ++ [getStashesCall repository]
  /\ infoLog s1 = infoLog s.
Proof.
  intros Hres Hnone.
  assert (Hfind : find (fun e => str_eqb (stashSha e) sha) (desktopEntries res) = None).
  { apply find_none_iff. intros x Hx. apply str_eqb_neq. auto. }
  split.
  - rewrite popStashEntry_run, getStashEntryMatchingSha_run, Hres, Hfind.
    reflexivity.
  - apply getStashes_inv in Hres as (_ & _ & _ & ->). split; reflexivity.
Qed.

(** X8: when the entry is located and the pop command does not come back
    with exit code 1, popping ends as the command did: it returns when the
    command returned, it raises the error of the command when the command
    raised; either way the walk and the pop are the only commands issued and
    nothing is logged. *)
Theorem popStashEntry_plain_outcome (repository : Repository) (sha : jsstring)
        (s s1 : Sys World) (e : IStashEntry) :
  getStashEntryMatchingSha core_git repository sha s = (Returned (Some e), s1) ->
  (forall r w2,
      core_git (popStashArgs (name e)) (path repository) (js "popStashEntry")
               popStashOptions (world s1) = (inr r, w2) ->
      exitCode r <> 1%Z ->
      popStashEntry core_git repository sha s
      = (Returned tt, afterCall s1 (popStashCall repository (name e)) w2))
  /\ (forall err w2,
         core_git (popStashArgs (name e)) (path repository) (js "popStashEntry")
                  popStashOptions (world s1) = (inl err, w2) ->
         popStashEntry core_git repository sha s
         = (Raised err, afterCall s1 (popStashCall repository (name e)) w2))
  /\ calls s1 = calls s ++ [getStashesCall repository]
  /\ infoLog s1 = infoLog s.
Proof.
  intros H1. split; [|split].
  - intros r w2 H2 Hcode. rewrite popStashEntry_run, H1, H2.
    apply Z.eqb_neq in Hcode. rewrite Hcode. reflexivity.
  - intros err w2 H2. rewrite popStashEntry_run, H1, H2. reflexivity.
  - pose proof (getStashEntryMatchingSha_frame repository sha s) as F.
    rewrite H1 in F. exact F.
Qed.

(** X9: popping issues a stash-drop command only in the ambiguous case: if
    one of the commands it issued is a drop, then the entry was located and
    the pop command returned exit code 1 with nothing on standard error. *)
Theorem popStashEntry_drop_only_when_quiet (repository : Repository)
        (sha : jsstring) (s s' : Sys World) (out : Outcome unit)
        (issued : list GitCall) :
  popStashEntry core_git repository sha s = (out, s') ->
  calls s' = calls s ++ issued ->
  existsb isDropCall issued = true ->
  exists e s1 r w2,
    getStashEntryMatchingSha core_git repository sha s = (Returned (Some e), s1)
    /\ core_git (popStashArgs (name e)) (path repository) (js "popStashEntry")
                popStashOptions (world s1) = (inr r, w2)
    /\ exitCode r = 1%Z
    /\ stderr r = [].
Proof.
  intros Hpop Hcalls Hdrop.
  rewrite popStashEntry_run in Hpop.
  pose proof (getStashEntryMatchingSha_frame repository sha s) as [F _].
  destruct (getStashEntryMatchingSha core_git repository sha s)
    as [[[e|]|err] s1] eqn:H1; cbn [snd] in F.
  - destruct (core_git (popStashArgs (name e)) (path repository)
                       (js "popStashEntry") popStashOptions (world s1))
      as [[err|r] w2] eqn:H2.
    + exfalso. injection Hpop as _ <-. unfold afterCall in Hcalls. simpl in Hcalls.
      rewrite F, <- app_assoc in Hcalls. apply app_inv_head in Hcalls.
      subst issued. discriminate Hdrop.
    + destruct (Z.eqb (exitCode r) 1) eqn:Hcode.
      * destruct (stderr r) as [|c rest] eqn:Herr.
        -- exists e, s1, r, w2. apply Z.eqb_eq in Hcode. auto.
        -- exfalso. simpl in Hpop. injection Hpop as _ <-.
           unfold afterCall in Hcalls. simpl in Hcalls.
           rewrite F, <- app_assoc in Hcalls. apply app_inv_head in Hcalls.
           subst issued. discriminate Hdrop.
      * exfalso. injection Hpop as _ <-. unfold afterCall in Hcalls.
        simpl in Hcalls.
        rewrite F, <- app_assoc in Hcalls. apply app_inv_head in Hcalls.
        subst issued. discriminate Hdrop.
  - exfalso. injection Hpop as _ <-. rewrite F in Hcalls.
    apply app_inv_head in Hcalls. subst issued. discriminate Hdrop.
  - exfalso. injection Hpop as _ <-. rewrite F in Hcalls.
    apply app_inv_head in Hcalls. subst issued. discriminate Hdrop.
Qed.

(** X10: when the listing has an owned entry with the hash, dropping issues
    the stash-drop command for the current positional name of the first such
    entry, right after the walk, and ends as that command did: it returns
    when the command returned and raises its error when it raised. *)
Theorem dropDesktopStashEntry_targets_first (repository : Repository)
        (sha : jsstring) (s s1 : Sys World) (res : StashResult)
        (before after : list IStashEntry) (e : IStashEntry) :
  getStashes core_git repository s = (Returned res, s1) ->
  desktopEntries res = before ++ e :: after ->
  stashSha e = sha ->
  (forall x, In x before -> stashSha x <> sha) ->
  let s2 := afterCall s1 (dropStashCall repository (name e))
                      (snd (core_git (dropStashArgs (name e)) (path repository)
                                     (js "dropStashEntry") noOptions (world s1))) in
  calls s2 = calls s ++ [getStashesCall repository;
                         dropStashCall repository (name e)]
  /\ (forall r w,
         core_git (dropStashArgs (name e)) (path repository) (js "dropStashEntry")
                  noOptions (world s1) = (inr r, w) ->
         dropDesktopStashEntry core_git repository sha s = (Returned tt, s2))
  /\ (forall err w,
         core_git (dropStashArgs (name e)) (path repository) (js "dropStashEntry")
                  noOptions (world s1) = (inl err, w) ->
         dropDesktopStashEntry core_git repository sha s = (Raised err, s2)).
Proof.
  intros Hres Hl He Hb s2.
  assert (Hfind : find (fun x => str_eqb (stashSha x) sha) (desktopEntries res)
                  = Some e).
  { rewrite Hl. clear Hl. induction before as [|x before IH]; simpl.
    - rewrite (proj2 (str_eqb_eq _ _) He). reflexivity.
    - rewrite (proj2 (str_eqb_neq _ _) (Hb x (or_introl eq_refl))).
      apply IH. intros y Hy. apply Hb. right. exact Hy. }
  assert (Hrun : dropDesktopStashEntry core_git repository sha s
                 = (match fst (core_git (dropStashArgs (name e)) (path repository)
                                        (js "dropStashEntry") noOptions (world s1)) with
                    | inl err => Raised err
                    | inr _ => Returned tt
                    end, s2)).
  { rewrite dropDesktopStashEntry_run, getStashEntryMatchingSha_run, Hres, Hfind.
    reflexivity. }
  split; [|split].
  - apply getStashes_inv in Hres as (_ & _ & _ & Hs1).
    unfold s2, afterCall. simpl. rewrite Hs1. simpl.
    rewrite <- app_assoc. reflexivity.
  - intros r w H. rewrite Hrun, H. reflexivity.
  - intros err w H. rewrite Hrun, H. reflexivity.
Qed.

(** X11: the staging step asks for the untracked files and, when there are
    none (empty output), issues nothing more; when the output lists one or
    more paths, each ended by NUL, it issues one add command whose arguments
    are exactly these paths, and ends as that command did. *)
Theorem stageUntrackedFiles_adds_listed (repository : Repository) (s : Sys World)
        (r : IGitResult) (w : World) :
  core_git [js "ls-files"; js "-z"; js "--others"; js "--exclude-standard"]
           (path repository) (js "getUntrackedFilesToStage") noOptions (world s)
  = (inr r, w) ->
  let s1 := afterCall s (lsFilesCall repository) w in
  (stdout r = [] -> stageUntrackedFiles core_git repository s = (Returned tt, s1))
  /\ forall untrackedFiles,
      untrackedFiles <> [] ->
      Forall (fun f => ~ In 0%N f) untrackedFiles ->
      stdout r = walkOutput untrackedFiles ->
      calls (snd (stageUntrackedFiles core_git repository s))
      = calls s ++ [lsFilesCall repository; addCall repository untrackedFiles]
      /\ (forall r' w',
             core_git (js "add" :: untrackedFiles) (path repository)
                      (js "stageUntrackedFiles") noOptions w = (inr r', w') ->
             stageUntrackedFiles core_git repository s
             = (Returned tt, afterCall s1 (addCall repository untrackedFiles) w'))
      /\ (forall err w',
             core_git (js "add" :: untrackedFiles) (path repository)
                      (js "stageUntrackedFiles") noOptions w = (inl err, w') ->
             stageUntrackedFiles core_git repository s
             = (Raised err, afterCall s1 (addCall repository untrackedFiles) w')).
Proof.
  intros Hls s1. split.
  - intros Hout. rewrite stageUntrackedFiles_run, Hls, Hout. reflexivity.
  - intros untrackedFiles Hne Hnul Hout.
    assert (Hsplit : split 0%N (firstn (length (stdout r) - 1) (stdout r))
                     = untrackedFiles).
    { rewrite Hout, (walkOutput_join untrackedFiles Hne), firstn_all_but_last.
      apply split_join; assumption. }
    assert (Hlen : negb (Nat.eqb (length (stdout r)) 0) = true).
    { rewrite Hout, (walkOutput_join untrackedFiles Hne), length_app. simpl.
      destruct (Nat.eqb_spec (length (join [0%N] untrackedFiles) + 1) 0);
        [lia | reflexivity]. }
    pose proof (stageUntrackedFiles_run repository s) as Hrun.
    rewrite Hls in Hrun. cbv zeta in Hrun. rewrite Hlen, Hsplit in Hrun.
    split; [|split].
    + rewrite Hrun.
      destruct (core_git (js "add" :: untrackedFiles) _ _ _ w) as [[err|r'] w'];
        unfold afterCall; simpl; rewrite <- app_assoc; reflexivity.
    + intros r' w' Hadd. rewrite Hrun, Hadd. reflexivity.
    + intros err w' Hadd. rewrite Hrun, Hadd. reflexivity.
Qed.

(** X12: creating a stash raises what the staging step raises, without
    issuing the push; it raises what the push command raises; and when the
    push returns with any exit code other than 1 it returns the success
    signal.  In the three cases nothing is logged and no command follows. *)
Theorem createDesktopStashEntry_plain_outcome (repository : Repository)
        (branch : jsstring) (s s1 : Sys World) :
  (forall err,
      stageUntrackedFiles core_git repository s = (Raised err, s1) ->
      createDesktopStashEntry core_git repository branch s = (Raised err, s1))
  /\ (forall err w2,
         stageUntrackedFiles core_git repository s = (Returned tt, s1) ->
         core_git (createStashArgs branch) (path repository)
                  (js "createStashEntry") createStashOptions (world s1)
         = (inl err, w2) ->
         createDesktopStashEntry core_git repository branch s
         = (Raised err, afterCall s1 (createStashCall repository branch) w2))
  /\ (forall r w2,
         stageUntrackedFiles core_git repository s = (Returned tt, s1) ->
         core_git (createStashArgs branch) (path repository)
                  (js "createStashEntry") createStashOptions (world s1)
         = (inr r, w2) ->
         exitCode r <> 1%Z ->
         createDesktopStashEntry core_git repository branch s
         = (Returned true, afterCall s1 (createStashCall repository branch) w2)).
Proof.
  split; [|split].
  - intros err H. unfold createDesktopStashEntry.
    apply (bind_raised World _ _ _ _ _ H).
  - intros err w2 H1 H2. unfold createDesktopStashEntry.
    rewrite (bind_returned World _ _ _ _ _ H1). cbv zeta.
    apply bind_raised. apply git_raised. exact H2.
  - intros r w2 H1 H2 Hcode.
    rewrite (createDesktopStashEntry_run World core_git repository branch s s1 r w2 H1 H2).
    apply Z.eqb_neq in Hcode. rewrite Hcode. reflexivity.
Qed.

End MoreMutatorProperties.

Lemma cleanField_forallb (f : jsstring) :
  forallb (fun c => negb (N.eqb c fieldDelimiter) && negb (N.eqb c 0)) f = true ->
  cleanField f.
Proof.
  rewrite forallb_forall. intros H. split; intros Hin; apply H in Hin;
    apply andb_true_iff in Hin as [H1 H2]; [discriminate H1 | discriminate H2].
Qed.

(* ================================================================= *)
(** ** The further properties on the in-memory store *)

Module MoreScenarios.
Import MemoryStore.
Import MoreStores.

Definition walkResult : IGitResult := mkGitResult 0%Z (walk 0 threeEntries) [].

Lemma walk_quietConflict :
  reflogWalk git repo (world (start quietConflict)) = (inr walkResult, quietConflict).
Proof. reflexivity. Qed.

Lemma getStashes_entries_iff_witness :
  exists res s1,
    getStashes git repo (start quietConflict) = (Returned res, s1)
    /\ In topicEntry (desktopEntries res).
Proof.
  destruct (getStashes_entries_iff Store git repo (start quietConflict)
              walkResult quietConflict walk_quietConflict)
    as (res & Hres & Hiff); [discriminate|].
  exists res, (afterCall (start quietConflict) (getStashesCall repo) quietConflict).
  split; [exact Hres|]. apply Hiff.
  exists (js "On topic: !!GitHub_Desktop<topic>").
  split; [vm_compute; auto 10|].
  split; [vm_compute; intuition discriminate|].
  split; [vm_compute; intuition discriminate|].
  split; [vm_compute; intuition discriminate|].
  split; reflexivity.
Defined.

Lemma getStashes_entries_wellformed_witness :
  branchName topicEntry <> []
  /\ hasNoLineTerminator (branchName topicEntry)
  /\ cleanField (name topicEntry).
Proof.
  destruct (getStashes_entries_wellformed Store git repo (start quietConflict)
              (walked (start quietConflict))
              (mkStashResult [mainEntry; topicEntry] 2%Z) topicEntry)
    as (H1 & H2 & _ & H4 & _).
  - reflexivity.
  - right. left. reflexivity.
  - auto.
Defined.

Lemma getStashes_count_bounds_witness :
  exists res s1,
    getStashes git repo (start singleOwned) = (Returned res, s1)
    /\ (Z.of_nat (length (desktopEntries res)) <= stashEntryCount res + 1)%Z
    /\ length (desktopEntries res) = 1
    /\ stashEntryCount res = 0%Z.
Proof.
  destruct (getStashes_count_bounds Store git repo (start singleOwned)
              (mkGitResult 0%Z (walk 0 (stack singleOwned)) []) singleOwned eq_refl)
    as (res & Hres & Hle & _); [discriminate|].
  exists res, (walked (start singleOwned)).
  split; [exact Hres|]. split; [exact Hle|].
  assert (Hrun : getStashes git repo (start singleOwned)
                 = (Returned (mkStashResult
                                [mkStashEntry (positionalRef 0) (js "topic")
                                              (js "a1") NotLoaded] 0%Z),
                    walked (start singleOwned))) by reflexivity.
  rewrite Hrun in Hres. injection Hres as <-. split; reflexivity.
Defined.

Lemma cleanRecord_threeTriples : Forall cleanRecord threeTriples.
Proof.
  apply Forall_forall. intros t Ht. simpl in Ht.
  destruct Ht as [<-|[<-|[<-|[]]]]; unfold cleanRecord;
    (split; [|split]); apply cleanField_forallb; reflexivity.
Qed.

Lemma getStashes_walkOutput_witness :
  getStashes git repo (start quietConflict)
  = (Returned (mkStashResult [mainEntry; topicEntry] 2%Z),
     walked (start quietConflict)).
Proof.
  exact (getStashes_walkOutput Store git repo (start quietConflict)
           walkResult quietConflict threeTriples walk_quietConflict
           ltac:(discriminate) cleanRecord_threeTriples eq_refl).
Defined.


Lemma getStashEntryMatchingSha_first_witness :
  exists found s1,
    getStashEntryMatchingSha git repo (js "a1") (start quietConflict)
    = (Returned found, s1)
    /\ found = Some topicEntry
    /\ forall x, In x [mainEntry; topicEntry] -> stashSha x = js "a1" ->
                 x = topicEntry.
Proof.
  pose proof (getStashes_returned Store git repo (start quietConflict) _ _
                                  walk_quietConflict) as Hres.
  destruct (getStashEntryMatchingSha_first Store git repo (js "a1") _ _ _ Hres)
    as (found & Hfound & _ & Hunique).
  assert (Hrun : getStashEntryMatchingSha git repo (js "a1") (start quietConflict)
                 = (Returned (Some topicEntry), walked (start quietConflict)))
    by reflexivity.
  assert (Hsome : found = Some topicEntry).
  { rewrite Hrun in Hfound. injection Hfound as <-. reflexivity. }
  exists found, (walked (start quietConflict)).
  split; [exact Hfound|]. split; [exact Hsome|].
  intros x Hx Hsha. apply (Hunique); [|exact Hsome|exact Hx|exact Hsha].
  change (NoDup [js "c3"; js "a1"]).
  repeat constructor; simpl; intuition discriminate.
Defined.

Lemma popStashEntry_absent_noop_witness :
  popStashEntry git repo (js "ffff") (start quietConflict)
  = (Returned tt, walked (start quietConflict)).
Proof.
  pose proof (getStashes_returned Store git repo (start quietConflict) _ _
                                  walk_quietConflict) as Hres.
  refine (proj1 (popStashEntry_absent_noop Store git repo (js "ffff") _ _ _ Hres _)).
  apply (listsHash_false_absent Store git repo (js "ffff") (start quietConflict)
                                _ _ eq_refl Hres).
Defined.

Lemma popStashEntry_plain_outcome_witness :
  (exists s2, popStashEntry git repo (js "a1") (start calm) = (Returned tt, s2)
              /\ stack (world s2) = twoEntries)
  /\ exists s2,
      popStashEntry git repo (js "a1") (start rejectedPop)
      = (Raised (mkGitError (popAnswer rejectedPop) (popStashArgs (positionalRef 2))),
         s2).
Proof.
  split.
  - destruct (popStashEntry_plain_outcome Store git repo (js "a1") (start calm)
                (walked (start calm)) topicEntry eq_refl) as (Hret & _).
    eexists. split.
    + apply (Hret ok (withStack calm twoEntries)); [reflexivity | discriminate].
    + reflexivity.
  - destruct (popStashEntry_plain_outcome Store git repo (js "a1")
                (start rejectedPop) (walked (start rejectedPop)) topicEntry eq_refl)
      as (_ & Hraise & _).
    eexists. apply (Hraise _ rejectedPop). reflexivity.
Defined.

Lemma popStashEntry_drop_only_when_quiet_witness :
  exists e s1 r w2,
    getStashEntryMatchingSha git repo (js "a1") (start quietConflict)
    = (Returned (Some e), s1)
    /\ git (popStashArgs (name e)) (path repo) (js "popStashEntry")
           popStashOptions (world s1) = (inr r, w2)
    /\ exitCode r = 1%Z
    /\ stderr r = [].
Proof.
  apply (popStashEntry_drop_only_when_quiet Store git repo (js "a1")
           (start quietConflict)
           (snd (popStashEntry git repo (js "a1") (start quietConflict)))
           (fst (popStashEntry git repo (js "a1") (start quietConflict)))
           (calls (snd (popStashEntry git repo (js "a1") (start quietConflict))))).
  - apply surjective_pairing.
  - reflexivity.
  - reflexivity.
Defined.

Lemma dropDesktopStashEntry_targets_first_witness :
  exists s2,
    dropDesktopStashEntry git repo (js "a1") (start calm) = (Returned tt, s2)
    /\ map callArgs (calls s2) = [getStashesArgs; dropStashArgs (positionalRef 2)]
    /\ stack (world s2) = twoEntries.
Proof.
  assert (Hw : reflogWalk git repo (world (start calm)) = (inr walkResult, calm))
    by reflexivity.
  pose proof (getStashes_returned Store git repo (start calm) _ _ Hw) as Hres.
  destruct (dropDesktopStashEntry_targets_first Store git repo (js "a1")
              (start calm) _ _ [mainEntry] [] topicEntry Hres eq_refl eq_refl)
    as (_ & Hret & _).
  { intros x [<-|[]]. discriminate. }
  eexists. split; [apply (Hret ok (withStack calm twoEntries)); reflexivity|].
  split; reflexivity.
Defined.

Lemma stageUntrackedFiles_adds_listed_witness :
  calls (snd (stageUntrackedFiles git repo (start twoUntracked)))
  = [lsFilesCall repo; addCall repo [js "new.txt"; js "docs/notes.md"]]
  /\ stageUntrackedFiles git repo (start quietConflict)
     = (Returned tt,
        afterCall (start quietConflict) (lsFilesCall repo) quietConflict).
Proof.
  split.
  - destruct (stageUntrackedFiles_adds_listed Store git repo (start twoUntracked)
                (mkGitResult 0%Z (walkOutput [js "new.txt"; js "docs/notes.md"]) [])
                twoUntracked eq_refl) as (_ & Hadd).
    destruct (Hadd [js "new.txt"; js "docs/notes.md"]) as (Hcalls & _).
    + discriminate.
    + repeat constructor; simpl; intuition discriminate.
    + reflexivity.
    + exact Hcalls.
  - destruct (stageUntrackedFiles_adds_listed Store git repo (start quietConflict)
                (mkGitResult 0%Z [] []) quietConflict eq_refl) as (Hnone & _).
    apply Hnone. reflexivity.
Defined.

Lemma createDesktopStashEntry_plain_outcome_witness :
  (exists s2,
      createDesktopStashEntry git repo (js "feat") (start rejectedPush)
      = (Raised (mkGitError (pushAnswer rejectedPush) (createStashArgs (js "feat"))),
         s2))
  /\ createDesktopStashEntry BrokenStore.git repo (js "feat") BrokenStore.start
     = (Raised (mkGitError BrokenStore.failure
                           [js "ls-files"; js "-z"; js "--others";
                            js "--exclude-standard"]),
        afterCall BrokenStore.start (lsFilesCall repo) tt).
Proof.
  split.
  - destruct (createDesktopStashEntry_plain_outcome Store git repo (js "feat")
                (start rejectedPush)
                (afterCall (start rejectedPush) (lsFilesCall repo) rejectedPush))
      as (_ & Hpush & _).
    eexists. apply Hpush; reflexivity.
  - destruct (createDesktopStashEntry_plain_outcome unit BrokenStore.git repo
                (js "feat") BrokenStore.start
                (afterCall BrokenStore.start (lsFilesCall repo) tt))
      as (Hstage & _).
    apply Hstage. reflexivity.
Defined.

Lemma getLastDesktopStashEntryForBranch_unlistable_witness :
  getLastDesktopStashEntryForBranch git repo [109; 97; 105; 110; 10]%N
                                    (start quietConflict)
  = (Returned None, walked (start quietConflict)).
Proof.
  pose proof (getStashes_returned Store git repo (start quietConflict) _ _
                                  walk_quietConflict) as Hres.
  apply (getLastDesktopStashEntryForBranch_unlistable Store git repo _ _ _ _ Hres).
  right. exists 10%N. split; [simpl; auto 10 | left; reflexivity].
Defined.

End MoreScenarios.
